(** * MDF to PyTorch exporter: a shallow embedding of
      [modeci_mdf/interfaces/pytorch/exporter.py]

    The exporter turns an MDF model (graphs of nodes with parameters, ports
    and weighted edges) into the text of a PyTorch module.  The embedding
    keeps the generated text byte for byte, the three module-level
    accumulators ([not_self], [param_set], [graph_input]) as an explicit
    store threaded through every call, and Python exceptions as an error
    result. *)

From Stdlib Require Import ZArith String Ascii List DecimalString Permutation Lia.
From stdpp Require Import gmap strings list.

(** ** Python string primitives *)

Module PyStr.

Definition nl : string := String (ascii_of_nat 10) "".
Definition tab : string := String (ascii_of_nat 9) "".

(** [sub in s] on two [str] values. *)
Fixpoint contains (sub s : string) : bool :=
  String.prefix sub s ||
  match s with
  | EmptyString => false
  | String _ s' => contains sub s'
  end.

(** [s.replace(old, new)] for a non-empty [old]: scan from the left, and
    after a match resume behind it ([skip] counts the characters of the
    match still to be dropped). *)
Fixpoint replace_from (old new : string) (skip : nat) (s : string) : string :=
  match s with
  | EmptyString => EmptyString
  | String c s' =>
      match skip with
      | S k => replace_from old new k s'
      | O =>
          if String.prefix old s
          then new +:+ replace_from old new (String.length old - 1) s'
          else String c (replace_from old new 0 s')
      end
  end.

(** [s.replace("", new)]: [new] goes before every character and at the
    end. *)
Fixpoint replace_empty (new s : string) : string :=
  new +:+ match s with
          | EmptyString => EmptyString
          | String c s' => String c (replace_empty new s')
          end.

Definition replace (old new s : string) : string :=
  match old with
  | EmptyString => replace_empty new s
  | _ => replace_from old new 0 s
  end.

(** [sep.join(l)] *)
Fixpoint join (sep : string) (l : list string) : string :=
  match l with
  | [] => ""
  | [x] => x
  | x :: l' => x +:+ sep +:+ join sep l'
  end.

Definition concat (l : list string) : string := foldr String.append "" l.

End PyStr.

Import PyStr.

(** ** Values found in the fields of the MDF objects

    A parameter value, a default initial value or an edge weight is [None],
    an [int], a [float] or a [str] (an expression).  A float is kept as the
    text [str()] prints for it together with its truth value. *)

Inductive pyval :=
| VNone
| VInt (z : Z)
| VFloat (text : string) (nonzero : bool)
| VStr (s : string).

(** [str(v)], what [format] and an f-string print. *)
Definition py_str (v : pyval) : string :=
  match v with
  | VNone => "None"
  | VInt z => NilZero.string_of_int (Z.to_int z)
  | VFloat text _ => text
  | VStr s => s
  end.

(** [bool(v)], what [if v:] tests. *)
Definition truthy (v : pyval) : bool :=
  match v with
  | VNone => false
  | VInt z => negb (z =? 0)%Z
  | VFloat _ nonzero => nonzero
  | VStr s => negb (String.eqb s "")
  end.

Definition is_none (v : pyval) : bool :=
  match v with VNone => true | _ => false end.

(** [v == s] for a [str] constant [s]. *)
Definition eq_str (v : pyval) (s : string) : bool :=
  match v with VStr s' => String.eqb s' s | _ => false end.

(** An optional [str] field. *)
Definition of_ostr (o : option string) : pyval :=
  match o with
  | None => VNone
  | Some s => VStr s
  end.

(** ** The MDF objects, field by field as the exporter reads them *)

Record Param := {
  p_id : string;
  p_value : pyval;
  p_default_initial_value : pyval;
  p_time_derivative : option string;
  p_function : option string;
  p_args : option (list (string * pyval));
  (** the result of the method [is_stateful()] of the MDF class *)
  p_is_stateful : bool
}.

Record InputPort := { ip_id : string }.

Record OutputPort := { op_id : string; op_value : option string }.

Record Node := {
  n_id : string;
  n_input_ports : list InputPort;
  (** the ids of the node-level functions *)
  n_functions : list string;
  n_parameters : list Param;
  n_output_ports : list OutputPort
}.

Record Edge := {
  e_sender : string;
  e_receiver : string;
  e_parameters : option (list (string * pyval))
}.

Record Graph := {
  g_id : string;
  g_nodes : list Node;
  g_edges : list Edge
}.

Record Model := {
  m_id : string;
  m_graphs : list Graph
}.

(** ** Exceptions and the module-level store *)

Inductive exn :=
| UnboundLocalError
| AttributeError
| TypeError
| KeyError
| IndexError.

Inductive outcome (A : Type) :=
| Ok (a : A)
| Raise (e : exn).
Arguments Ok {A} a.
Arguments Raise {A} e.

(** The three module-level accumulators.  [not_self] and [param_set] are
    Python [set]s: each is kept as the duplicate-free list of its elements
    in the order they were added.  Nothing in the module ever adds to
    [not_self]. *)
Record globals := {
  not_self : list string;
  param_set : list string;
  graph_input : list pyval
}.

(** The store right after the module is imported. *)
Definition at_import : globals :=
  {| not_self := []; param_set := []; graph_input := [] |}.

(** A computation reads and writes the store and returns or raises; the
    store survives a raise, as module globals do. *)
Definition py (A : Type) : Type := globals -> outcome A * globals.

Definition ret {A} (a : A) : py A := fun g => (Ok a, g).
Definition raise {A} (e : exn) : py A := fun g => (Raise e, g).
Definition bind {A B} (c : py A) (k : A -> py B) : py B :=
  fun g =>
    match c g with
    | (Ok a, g') => k a g'
    | (Raise e, g') => (Raise e, g')
    end.
Definition lift {A} (o : outcome A) : py A := fun g => (o, g).

Notation "'let!' x ':=' c 'in' k" := (bind c (fun x => k))
  (at level 10, x name, c at level 100, k at level 200).

(** A [for] loop that appends text: run [f] on every element in turn and
    concatenate what it emits. *)
Fixpoint for_text {A} (f : A -> py string) (l : list A) : py string :=
  match l with
  | [] => ret ""
  | x :: l' =>
      let! t := f x in
      let! ts := for_text f l' in
      ret (t +:+ ts)
  end.

Definition set_add (x : string) (s : list string) : list string :=
  if bool_decide (x ∈ s) then s else s ++ [x].

Definition param_set_add (x : string) : py unit :=
  fun g => (Ok tt, {| not_self := not_self g;
                      param_set := set_add x (param_set g);
                      graph_input := graph_input g |}).

Definition graph_input_append (v : pyval) : py unit :=
  fun g => (Ok tt, {| not_self := not_self g;
                      param_set := param_set g;
                      graph_input := graph_input g ++ [v] |}).

Definition get_not_self : py (list string) := fun g => (Ok (not_self g), g).
Definition get_param_set : py (list string) := fun g => (Ok (param_set g), g).
Definition get_graph_input : py (list pyval) := fun g => (Ok (graph_input g), g).

(** A Python [dict] with [str] keys, in insertion order: [d[k] = v] keeps the
    place of a key that is already there and appends a new one. *)
Fixpoint dict_set {A} (k : string) (v : A) (d : list (string * A))
  : list (string * A) :=
  match d with
  | [] => [(k, v)]
  | (k', v') :: d' =>
      if String.eqb k' k then (k, v) :: d' else (k', v') :: dict_set k v d'
  end.

Fixpoint dict_get {A} (k : string) (d : list (string * A)) : option A :=
  match d with
  | [] => None
  | (k', v') :: d' => if String.eqb k' k then Some v' else dict_get k d'
  end.

(** Truth of an optional [str] field: [None] and [""] are false. *)
Definition truthy_ostr (o : option string) : bool := truthy (of_ostr o).

(** ** The exporter

    Five things the exporter uses live outside the file: the order in which
    the interpreter iterates a [set] of strings, [repr] of a [str], the
    registry [mdf_functions] of the standard functions (name to
    [expression_string]), the scheduler's [EvaluableGraph.ordered_edges] and
    the method [Graph.get_node].  They are the variables of this section. *)

Section Exporter.

(** [for i in param_set] visits [set_order s] when the set holds [s]. *)
Variable set_order : list string -> list string.
Variable repr_str : string -> string.
Variable mdf_functions : gmap string string.
Variable ordered_edges : Graph -> list Edge.
(** [Graph.get_node], a method of the MDF class: the node of that id, or
    [None]. *)
Variable get_node : Graph -> string -> option Node.

(** *** [sym]: prefix the parameters with [self.] *)

Fixpoint sym_loop (ids : list string) (value : pyval) : outcome pyval :=
  match ids with
  | [] => Ok value
  | i :: ids' =>
      match value with
      | VStr s =>
          sym_loop ids'
            (VStr (if contains i s then replace i ("self." +:+ i) s else s))
      | _ => Raise TypeError
      end
  end.

Definition sym (value : pyval) : py pyval :=
  fun g => (sym_loop (set_order (param_set g)) value, g).

(** *** [func_args]: put the arguments into an expression string

    [arg_dict] is a [dict]: its keys are pairwise different and are
    visited in insertion order. *)

Fixpoint func_args_loop (arg_dict : list (string * pyval)) (exp : string)
  : string :=
  match arg_dict with
  | [] => exp
  | (i, v) :: rest =>
      func_args_loop rest
        (if contains i exp then replace i (py_str v) exp else exp)
  end.

Definition func_args (exp : string) (arg_dict : option (list (string * pyval)))
  : outcome string :=
  match arg_dict with
  | None => Raise TypeError
  | Some d => Ok (func_args_loop d exp)
  end.

(** *** [get_module_declaration_text] *)

(** One turn of the loop that writes the arguments of [__init__]. *)
Definition init_arg (parameter : Param) : py string :=
  let! _ := (if String.eqb (p_id parameter) "input_level"
             then graph_input_append (p_value parameter) else ret tt) in
  let! _ := (if negb (truthy_ostr (p_function parameter))
             then param_set_add (p_id parameter) else ret tt) in
  if negb (p_is_stateful parameter) && negb (truthy_ostr (p_function parameter))
  then ret (p_id parameter +:+ "=torch.tensor("
              +:+ py_str (p_value parameter) +:+ "),")
  else if p_is_stateful parameter then
    if truthy (p_value parameter)
    then ret (p_id parameter +:+ "=torch.tensor(" +:+ py_str (VInt 0) +:+ "),")
    else
      let! ps := get_param_set in
      if eq_str (p_default_initial_value parameter) "str"
         && bool_decide ("str" ∈ ps)
      then raise AttributeError (* [.value] of a [str] *)
      else ret (p_id parameter +:+ "=torch.tensor("
                  +:+ py_str (p_default_initial_value parameter) +:+ "),")
  else ret "".

(** One turn of the loop that copies the arguments into attributes. *)
Definition init_attr (parameter : Param) : string :=
  if negb (truthy_ostr (p_function parameter))
  then nl +:+ tab +:+ tab +:+ "self." +:+ p_id parameter +:+ "=" +:+ p_id parameter
  else "".

(** The lines of the [forward] of a unit, before its [return]: the
    execution counter, a direct assignment to an attribute, an accumulation
    onto an attribute, the assignment of a function result to a local
    name. *)
Inductive line :=
| Count
| Replace (id e : string)
| Accumulate (id e : string)
| Local (id e : string).

Definition line_text (l : line) : string :=
  match l with
  | Count =>
      nl +:+ tab +:+ tab
         +:+ "self.execution_count=self.execution_count+torch.tensor(1)"
  | Replace id e =>
      nl +:+ tab +:+ tab +:+ "self." +:+ id +:+ "=" +:+ e
  | Accumulate id e =>
      nl +:+ tab +:+ tab +:+ "self." +:+ id +:+ "=self." +:+ id
         +:+ "+(" +:+ e +:+ ")"
  | Local id e =>
      nl +:+ tab +:+ tab +:+ id +:+ "=" +:+ e
  end.

(** The update a stateful parameter gets in [forward]. *)
Definition forward_stateful (parameter : Param) : py (list line) :=
  if p_is_stateful parameter && negb (truthy_ostr (p_function parameter)) then
    if truthy (p_value parameter) then
      let! v := sym (p_value parameter) in
      ret [Replace (p_id parameter) (py_str v)]
    else if truthy_ostr (p_time_derivative parameter) then
      let! v := sym (of_ostr (p_time_derivative parameter)) in
      ret [Accumulate (p_id parameter) (py_str v)]
    else ret []
  else ret [].

(** Reading [exp] in [declaration_text += exp]. *)
Definition read_exp (exp : option pyval) : py string :=
  match exp with
  | None => raise UnboundLocalError
  | Some (VStr e) => ret e
  | Some _ => raise TypeError
  end.

(** The line a function parameter gets in [forward].  The local variable
    [exp] is assigned only when the function is in the registry; it is
    read in either case. *)
Definition forward_function (parameter : Param) (exp : option pyval)
  : py (list line * option pyval) :=
  match p_function parameter with
  | Some f =>
      if truthy_ostr (Some f) then
        let! exp' :=
          match mdf_functions !! f with
          | Some expression_string =>
              let! e := lift (func_args expression_string (p_args parameter)) in
              let! e := sym (VStr e) in
              ret (Some e)
          | None => ret exp
          end in
        let! e := read_exp exp' in
        ret ([Local (p_id parameter) e], exp')
      else ret ([], exp)
  | None => ret ([], exp)
  end.

(** The loop over the parameters in [forward]; [exp] is carried from one
    turn to the next. *)
Fixpoint forward_params (parameters : list Param) (exp : option pyval)
  : py (list line) :=
  match parameters with
  | [] => ret []
  | parameter :: rest =>
      let! l1 := forward_stateful parameter in
      let! r := forward_function parameter exp in
      let! ls := forward_params rest (snd r) in
      ret (l1 ++ fst r ++ ls)
  end.

(** The [return] line: the value of the first output port, as it is when
    it is in [not_self], through [sym] otherwise. *)
Definition forward_return (output_ports : list OutputPort) : py string :=
  match output_ports with
  | [] => raise IndexError
  | o :: _ =>
      let! ns := get_not_self in
      let listed := match op_value o with
                    | Some s => bool_decide (s ∈ ns)
                    | None => false
                    end in
      if listed
      then ret (nl +:+ tab +:+ tab +:+ "return " +:+ py_str (of_ostr (op_value o)))
      else
        let! v := sym (of_ostr (op_value o)) in
        ret (nl +:+ tab +:+ tab +:+ "return " +:+ py_str v)
  end.

Definition class_header (name : string) : string :=
  nl +:+ "class " +:+ name +:+ "(nn.Module):".

Definition is_empty {A} (l : list A) : bool :=
  match l with [] => true | _ => false end.

Definition get_module_declaration_text
    (name : string) (node_dict : Node) (execution_order : list string)
  : py string :=
  let declaration_text := class_header name in
  let input_ports := n_input_ports node_dict in
  let functions := n_functions node_dict in
  let parameters := n_parameters node_dict in
  let output_ports := n_output_ports node_dict in
  if negb (is_empty parameters) && is_empty functions then
    let! args := for_text init_arg parameters in
    let attrs := concat (map init_attr parameters) in
    let! body := forward_params parameters None in
    let! r := forward_return output_ports in
    ret (declaration_text
           +:+ nl +:+ tab +:+ "def __init__(self," +:+ args +:+ "):"
           +:+ nl +:+ tab +:+ tab +:+ "super().__init__()"
           +:+ attrs
           +:+ nl +:+ tab +:+ tab +:+ "self.execution_count=torch.tensor(0)"
           +:+ nl +:+ tab +:+ "def forward(self,"
           +:+ concat (map ip_id input_ports) +:+ " ):"
           +:+ concat (map line_text (Count :: body))
           +:+ r)
  else ret declaration_text.

(** *** [generate_main_forward] *)

(** One invocation of a node's unit in the main [forward]: without an
    argument, or on the running value of a sender, scaled when the edge has
    a weight that is not [None]. *)
Inductive call :=
| Call (node : string) (arg : option (string * pyval)).

Definition call_node (c : call) : string :=
  match c with Call node _ => node end.

(** The argument expression of a call, as it is written. *)
Definition call_args (c : call) : list string :=
  match c with
  | Call _ None => []
  | Call _ (Some (k, v)) =>
      if is_none v then ["val_" +:+ k]
      else ["val_" +:+ k +:+ "*torch.tensor(" +:+ py_str v +:+ ")"]
  end.

(** The three lines the loop over [d_e] writes. *)
Definition call_text (c : call) : string :=
  match c with
  | Call node None =>
      nl +:+ nl +:+ tab +:+ tab +:+ " val_" +:+ node +:+ "=val_" +:+ node
         +:+ "+self." +:+ node +:+ "()"
  | Call node (Some (k, v)) =>
      if is_none v
      then nl +:+ tab +:+ tab +:+ " val_" +:+ node +:+ "=val_" +:+ node
              +:+ "+self." +:+ node +:+ "(val_" +:+ k +:+ ")"
      else nl +:+ tab +:+ tab +:+ " val_" +:+ node +:+ "=val_" +:+ node
              +:+ "+self." +:+ node +:+ "(val_" +:+ k
              +:+ "*torch.tensor(" +:+ py_str v +:+ "))"
  end.

(** The calls written for one entry of [d_e]. *)
Definition node_calls (entry : string * list (string * pyval)) : list call :=
  let (node, dependency_set) := entry in
  if is_empty dependency_set
  then [Call node None]
  else map (fun kv => Call node (Some kv)) dependency_set.

(** The calls of the whole loop [for node, dependency_set in d_e.items()]. *)
Definition forward_calls (d_e : list (string * list (string * pyval)))
  : list call :=
  flat_map node_calls d_e.

(** The dictionary [d] the same loop fills. *)
Definition forward_names (d_e : list (string * list (string * pyval)))
  : gmap string string :=
  foldl (fun d entry => <[fst entry := "val_" +:+ fst entry]> d) ∅ d_e.

Definition zeros_text (node : string) : string :=
  nl +:+ tab +:+ tab +:+ " val_" +:+ node +:+ "=torch.zeros_like(input)".

(** The loop that writes the returned tuple: [d[node]] raises for a node
    the loop over [d_e] has not seen. *)
Fixpoint return_text (d : gmap string string) (execution_order : list string)
  : outcome string :=
  match execution_order with
  | [] => Ok ""
  | node :: rest =>
      match d !! node with
      | None => Raise KeyError
      | Some name =>
          match return_text d rest with
          | Ok t => Ok (name +:+ "," +:+ t)
          | Raise e => Raise e
          end
      end
  end.

Definition generate_main_forward
    (nodes : list Node) (execution_order : list string)
    (d_e : list (string * list (string * pyval))) : outcome string :=
  let main_forward := nl +:+ tab +:+ "def forward(self, input):" in
  let '(main_forward, d) :=
    if negb (is_empty execution_order)
    then (main_forward
            +:+ concat (map zeros_text execution_order)
            +:+ concat (map call_text (forward_calls d_e)),
          forward_names d_e)
    else (main_forward, ∅) in
  let main_forward := main_forward +:+ nl +:+ nl +:+ tab +:+ tab +:+ " return " in
  match return_text d execution_order with
  | Ok t => Ok (main_forward +:+ t)
  | Raise e => Raise e
  end.

(** *** [build_script] *)

Definition py_repr (v : pyval) : string :=
  match v with
  | VStr s => repr_str s
  | _ => py_str v
  end.

(** [str(tuple(l))] *)
Definition tuple_text (l : list pyval) : string :=
  match l with
  | [x] => "(" +:+ py_repr x +:+ ",)"
  | _ => "(" +:+ join ", " (map py_repr l) +:+ ")"
  end.

Definition imports_string : string :=
  "import torch" +:+ nl +:+ "import torch.nn as nn" +:+ nl +:+ "import onnx"
    +:+ nl +:+ "import onnxruntime as rt" +:+ nl +:+ "from math import *".

Definition main_call_declaration (nodes : list Node) : string :=
  nl +:+ "class Model(nn.Module):" +:+ nl +:+ tab +:+ "def __init__(self,"
     +:+ concat (map (fun node => n_id node +:+ ", ") nodes)
     +:+ "):" +:+ nl +:+ tab +:+ tab +:+ "super().__init__()"
     +:+ concat (map (fun node => nl +:+ tab +:+ tab +:+ "self." +:+ n_id node
                                     +:+ " = " +:+ n_id node) nodes).

(** What follows the main [forward] when there is more than one node. *)
Definition script_tail (nodes : list Node) (model_id : string)
    (inputs : list pyval) : string :=
  nl +:+ "model = Model("
     +:+ concat (map (fun node => n_id node +:+ "=" +:+ n_id node +:+ "(),") nodes)
     +:+ ")"
     +:+ nl +:+ "model=torch.jit.script(model)"
     +:+ (if negb (is_empty inputs)
          then nl +:+ "dummy_input =torch.tensor" +:+ tuple_text inputs
          else nl +:+ "dummy_input =torch.tensor(0.0)")
     +:+ nl +:+ "output = model(dummy_input)"
     +:+ nl +:+ "torch.onnx.export(model,dummy_input,'" +:+ model_id
     +:+ "',verbose=True,input_names=[],example_outputs=output,opset_version=9)"
     +:+ nl +:+ "onnx_model = onnx.load('" +:+ model_id +:+ "')"
     +:+ nl +:+ "onnx.checker.check_model(onnx_model)"
     +:+ nl +:+ "sess = rt.InferenceSession('" +:+ model_id +:+ "')"
     +:+ nl +:+ "res = sess.run(None, {sess.get_inputs()[0].name: dummy_input.numpy()})".

Definition build_script
    (nodes : list Node) (execution_order : list string) (model_id1 : string)
    (d_e : list (string * list (string * pyval))) : py string :=
  let model_id := model_id1 +:+ ".onnx" in
  let! modules_declaration_text :=
    for_text (fun node => get_module_declaration_text (n_id node) node execution_order)
             nodes in
  let! main_call_forward := lift (generate_main_forward nodes execution_order d_e) in
  let script := imports_string +:+ modules_declaration_text
                  +:+ main_call_declaration nodes +:+ main_call_forward in
  if Nat.eqb (List.length nodes) 1
  then ret (script +:+ "f" +:+ nl +:+ "model={nodes[0].id}")
  else
    let! inputs := get_graph_input in
    ret (script +:+ script_tail nodes model_id inputs).

(** *** [_generate_scripts_from_model] *)

(** [{n.id: defaultdict(dict) for n in graph.nodes}] *)
Definition d_e_init (nodes : list Node) : list (string * list (string * pyval)) :=
  foldl (fun d n => dict_set (n_id n) [] d) [] nodes.

(** The weight stored for an edge: [edge.parameters["weight"]] when
    [edge.parameters] is a non-empty dict with that key, else [None]. *)
Definition edge_weight (edge : Edge) : pyval :=
  match e_parameters edge with
  | Some params =>
      if negb (is_empty params)
      then match dict_get "weight" params with
           | Some w => w
           | None => VNone
           end
      else VNone
  | None => VNone
  end.

(** [d_e[receiver.id][sender.id] = weight] for one edge of [graph]. *)
Definition d_e_edge (graph : Graph) (edge : Edge)
    (d_e : list (string * list (string * pyval)))
  : outcome (list (string * list (string * pyval))) :=
  let sender := get_node graph (e_sender edge) in
  let receiver := get_node graph (e_receiver edge) in
  match receiver with
  | None => Raise AttributeError
  | Some receiver =>
      match dict_get (n_id receiver) d_e with
      | None => Raise KeyError
      | Some inner =>
          match sender with
          | None => Raise AttributeError
          | Some sender =>
              Ok (dict_set (n_id receiver)
                           (dict_set (n_id sender) (edge_weight edge) inner) d_e)
          end
      end
  end.

Fixpoint d_e_edges (graph : Graph) (edges : list Edge)
    (d_e : list (string * list (string * pyval)))
  : outcome (list (string * list (string * pyval))) :=
  match edges with
  | [] => Ok d_e
  | edge :: rest =>
      match d_e_edge graph edge d_e with
      | Ok d_e' => d_e_edges graph rest d_e'
      | Raise e => Raise e
      end
  end.

(** The inner loop [for graph in mdf_model.graphs: for edge in graph.edges]:
    it runs over the edges of every graph of the model. *)
Fixpoint d_e_graphs (graphs : list Graph)
    (d_e : list (string * list (string * pyval)))
  : outcome (list (string * list (string * pyval))) :=
  match graphs with
  | [] => Ok d_e
  | graph :: rest =>
      match d_e_edges graph (g_edges graph) d_e with
      | Ok d_e' => d_e_graphs rest d_e'
      | Raise e => Raise e
      end
  end.

(** The sender of the first ordered edge, then the receiver of every
    ordered edge; the node ids in declaration order when there is no
    edge. *)
Definition execution_order_of (nodes : list Node) (edges : list Edge)
  : list string :=
  let execution_order :=
    match edges with
    | [] => []
    | edge :: _ => e_sender edge :: map e_receiver edges
    end in
  if is_empty execution_order then map n_id nodes else execution_order.

(** One turn of the loop over the graphs.  The inner loop rebinds [graph],
    so the script is stored under the id of the last graph of the model. *)
Definition generate_script_for (mdf_model : Model) (graph : Graph)
    (scripts : list (string * string)) : py (list (string * string)) :=
  let model_id1 := m_id mdf_model in
  let nodes := g_nodes graph in
  let edges := ordered_edges graph in
  let! d_e := lift (d_e_graphs (m_graphs mdf_model) (d_e_init nodes)) in
  let execution_order := execution_order_of nodes edges in
  let! script := build_script nodes execution_order model_id1 d_e in
  let graph := List.last (m_graphs mdf_model) graph in
  ret (dict_set (g_id graph) script scripts).

Fixpoint generate_scripts_loop (mdf_model : Model) (graphs : list Graph)
    (scripts : list (string * string)) : py (list (string * string)) :=
  match graphs with
  | [] => ret scripts
  | graph :: rest =>
      let! scripts' := generate_script_for mdf_model graph scripts in
      generate_scripts_loop mdf_model rest scripts'
  end.

Definition _generate_scripts_from_model (mdf_model : Model)
  : py (list (string * string)) :=
  generate_scripts_loop mdf_model (m_graphs mdf_model) [].

End Exporter.


(** ** Notions the properties are stated with *)

(** [l.index(x)]: the first position of [x], if any. *)
Fixpoint order_index (x : string) (l : list string) : option nat :=
  match l with
  | [] => None
  | y :: l' =>
      if String.eqb y x then Some 0
      else match order_index x l' with
           | Some i => Some (S i)
           | None => None
           end
  end.

(** An order respects an edge when both ends are in it and the sender comes
    strictly first. *)
Definition edge_respected (order : list string) (e : Edge) : bool :=
  match order_index (e_sender e) order, order_index (e_receiver e) order with
  | Some i, Some j => Nat.ltb i j
  | _, _ => false
  end.

Definition topological (order : list string) (edges : list Edge) : bool :=
  forallb (edge_respected order) edges.

Definition is_ok {A} (o : outcome A) : bool :=
  match o with Ok _ => true | Raise _ => false end.

(** The ends of the edges can be looked up, and the receivers are nodes of
    the graph under construction. *)
Definition edges_resolve (get_node : Graph -> string -> option Node)
    (graph : Graph) (ids : list string) (edges : list Edge) : Prop :=
  forall e, In e edges ->
    exists s r, get_node graph (e_sender e) = Some s
                /\ get_node graph (e_receiver e) = Some r
                /\ In (n_id r) ids.

(** [g'] holds everything [g] holds, in the same order, and maybe more. *)
Definition extends (g g' : globals) : Prop :=
  not_self g' = not_self g
  /\ param_set g `prefix_of` param_set g'
  /\ graph_input g `prefix_of` graph_input g'.

(** A computation that never removes anything from the store. *)
Definition grows {A} (c : py A) : Prop := forall g, extends g (snd (c g)).

(** Whether the only script of a result contains a text. *)
Definition has_text (sub : string) (o : outcome (list (string * string))) : bool :=
  match o with
  | Ok [(_, script)] => contains sub script
  | _ => false
  end.


(** What [sym] makes of an expression text when the seen parameters are
    visited in the order [ids]. *)
Definition sym_str (ids : list string) (s : string) : string :=
  fold_left (fun s i => if contains i s then replace i ("self." +:+ i) s else s)
            ids s.

(** The initial state of a parameter that is not bound to a function: its
    value when it is not stateful; zero when it is stateful and has a value
    to be updated from; its declared default otherwise. *)
Definition initial_state (p : Param) : pyval :=
  if negb (p_is_stateful p) then p_value p
  else if truthy (p_value p) then VInt 0
  else p_default_initial_value p.
(** ** What the lines of the main [forward] do when the artifact runs

    A line [val_n=val_n+self.n(...)] reads the running value of [n], calls the
    unit of [n] on the argument and stores the sum.  Values, their sum and
    product, [torch.tensor] of a weight and the units themselves (which
    carry state from call to call) are those of the runtime: they are the
    variables of this section.  A variable that is read before it is bound
    stops the run. *)

Section ForwardRun.

Variable V : Type.
Variables add mul : V -> V -> V.
Variable tensor : pyval -> V.
Variable U : Type.
Variable invoke : string -> list V -> U -> V * U.

(** One call of a unit, as it happened. *)
Record invocation := {
  inv_node : string;
  inv_args : list V;
  inv_result : V
}.

Definition scaled (v : V) (w : pyval) : V :=
  if is_none w then v else mul v (tensor w).

Definition arg_values (vars : gmap string V) (c : call) : option (list V) :=
  match c with
  | Call _ None => Some []
  | Call _ (Some (k, w)) =>
      match vars !! ("val_" +:+ k) with
      | Some v => Some [scaled v w]
      | None => None
      end
  end.

Definition run_call (c : call) (st : gmap string V * U)
  : option (invocation * (gmap string V * U)) :=
  let node := call_node c in
  match fst st !! ("val_" +:+ node), arg_values (fst st) c with
  | Some acc, Some args =>
      let (r, u') := invoke node args (snd st) in
      Some ({| inv_node := node; inv_args := args; inv_result := r |},
            (<["val_" +:+ node := add acc r]> (fst st), u'))
  | _, _ => None
  end.

Fixpoint run_calls (cs : list call) (st : gmap string V * U)
  : option (list invocation * (gmap string V * U)) :=
  match cs with
  | [] => Some ([], st)
  | c :: cs' =>
      match run_call c st with
      | Some (i, st') =>
          match run_calls cs' st' with
          | Some (is', st'') => Some (i :: is', st'')
          | None => None
          end
      | None => None
      end
  end.

End ForwardRun.

Arguments inv_node {V} _.
Arguments inv_args {V} _.
Arguments inv_result {V} _.

(** ** What the lines of a unit's [forward] do when the unit is called

    Numbers are exact integers here.  What an expression text is worth,
    given the values of the names in scope (the input ports and the local
    names assigned so far) and of the attributes of the unit, is up to the
    Python runtime: it is the variable [eval]. *)

Section UnitRun.

Variable eval : (string -> Z) -> (string -> Z) -> string -> Z.

Definition assign (k : string) (v : Z) (f : string -> Z) : string -> Z :=
  fun x => if String.eqb x k then v else f x.

(** One line, on the names in scope and the attributes. *)
Definition run_line (l : line) (st : (string -> Z) * (string -> Z))
  : (string -> Z) * (string -> Z) :=
  let (names, self) := st in
  match l with
  | Count =>
      (names, assign "execution_count" (self "execution_count" + 1)%Z self)
  | Replace id e =>
      (names, assign id (eval names self e) self)
  | Accumulate id e =>
      (names, assign id (self id + eval names self e)%Z self)
  | Local id e =>
      (assign id (eval names self e) names, self)
  end.

Definition run_lines (ls : list line) (st : (string -> Z) * (string -> Z))
  : (string -> Z) * (string -> Z) :=
  fold_left (fun st l => run_line l st) ls st.

(** One invocation of the step operation: the counter, then the lines of
    the parameters; the attributes it leaves. *)
Definition run_forward (lines : list line) (inputs self : string -> Z)
  : string -> Z :=
  snd (run_lines (Count :: lines) (inputs, self)).

(** One invocation per element of [inputs_seq], in turn. *)
Definition run_forwards (lines : list line) (inputs_seq : list (string -> Z))
    (self : string -> Z) : string -> Z :=
  fold_left (fun s inputs => run_forward lines inputs s) inputs_seq self.

End UnitRun.

(** Whether a line assigns to the attribute [x]. *)
Definition writes (x : string) (l : line) : bool :=
  match l with
  | Count => String.eqb "execution_count" x
  | Replace id _ => String.eqb id x
  | Accumulate id _ => String.eqb id x
  | Local _ _ => false
  end.


(** ** Notions for the predecessor map *)

(** Whether an edge goes from [s] to [r]. *)
Definition joins (s r : string) (e : Edge) : bool :=
  String.eqb (e_sender e) s && String.eqb (e_receiver e) r.

(** The weight stored by the last edge from [s] to [r], if there is one. *)
Fixpoint last_weight (s r : string) (edges : list Edge) : option pyval :=
  match edges with
  | [] => None
  | e :: rest =>
      match last_weight s r rest with
      | Some w => Some w
      | None => if joins s r e then Some (edge_weight e) else None
      end
  end.

(** [d_e[r][s]], when both keys are there. *)
Definition d_e_lookup (r s : string) (d_e : list (string * list (string * pyval)))
  : option pyval :=
  match dict_get r d_e with
  | Some inner => dict_get s inner
  | None => None
  end.

(** What [get_node] finds has the id that was asked for. *)
Definition finds_by_id (get_node : Graph -> string -> option Node) : Prop :=
  forall graph id n, get_node graph id = Some n -> n_id n = id.

(** [get_node] finds both ends of every edge of the graph. *)
Definition all_found (get_node : Graph -> string -> option Node)
    (graph : Graph) : Prop :=
  forall e, In e (g_edges graph) ->
    is_Some (get_node graph (e_sender e))
    /\ is_Some (get_node graph (e_receiver e)).

(** The number of times the main [forward] calls the unit of one entry. *)
Definition calls_of (entry : string * list (string * pyval)) : nat :=
  Nat.max 1 (List.length (snd entry)).

(** The name of the running value of a node, as the returned tuple lists
    it. *)
Definition returned_name (node : string) : string :=
  "val_" +:+ node +:+ ",".

(** ** Notions for the store *)

(** The seen parameter ids once the parameters [ps] have gone through the
    [__init__] loop: the id of every parameter that is not bound to a
    function has been added. *)
Definition seen_after (ps : list Param) (seen : list string) : list string :=
  foldl (fun s p => if truthy_ostr (p_function p) then s else set_add (p_id p) s)
        seen ps.

(** The values the same loop collects: those of the parameters called
    [input_level]. *)
Definition inputs_of (ps : list Param) : list pyval :=
  map p_value (List.filter (fun p => String.eqb (p_id p) "input_level") ps).

(** The same two, over the nodes of a graph: only the nodes without
    node-level functions go through the [__init__] loop. *)
Definition seen_after_nodes (nodes : list Node) (seen : list string)
  : list string :=
  foldl (fun s n => if is_empty (n_functions n)
                    then seen_after (n_parameters n) s else s)
        seen nodes.

Definition inputs_of_nodes (nodes : list Node) : list pyval :=
  flat_map (fun n => if is_empty (n_functions n)
                     then inputs_of (n_parameters n) else [])
           nodes.

(** * The ONNX operators as Python functions: a shallow embedding of
      [modeci_mdf/onnx_functions/__init__.py]

    The schemas of the operators, the operator classes and the ONNX runtime
    are outside the file.  What is embedded is what the file computes
    itself: the specification of a function from a schema, the name an
    operator is looked up under, and how the wrapper of an operator sorts
    its positional and keyword arguments into inputs and attributes before
    it hands them to [run_onnx_op]. *)

Module Onnx.

(** An [OpSchema], as far as it is read: the name, the documentation, the
    names of the inputs, the keys of [attributes] (a dict) and the names of
    the outputs. *)
Record OpSchema := {
  s_name : string;
  s_doc : string;
  s_inputs : list string;
  s_attributes : list string;
  s_outputs : list string
}.

(** One entry of the list [get_onnx_ops] returns. *)
Record funcspec := {
  fs_name : string;
  fs_description : string;
  fs_arguments : list string;
  fs_expression_string : string
}.

(** [lower] is [str.lower]. *)
Definition get_onnx_op (lower : string -> string) (schema : OpSchema) : funcspec :=
  let args_list := s_inputs schema in
  let params_list := s_attributes schema in
  let args_params_str := join ", " (args_list ++ params_list) in
  {| fs_name := "onnx::" +:+ s_name schema;
     fs_description := s_doc schema;
     fs_arguments := args_list;
     fs_expression_string :=
       "onnx_ops." +:+ lower (s_name schema) +:+ "(" +:+ args_params_str +:+ ")" |}.

(** [s[n:]] *)
Fixpoint drop_chars (n : nat) (s : string) : string :=
  match n, s with
  | O, _ => s
  | S k, String _ s' => drop_chars k s'
  | S _, EmptyString => EmptyString
  end.

(** What follows the last separator that [s.split(sep)] finds in its scan
    from the left, if it finds one ([skip] counts the characters of a
    separator still to be passed). *)
Fixpoint after_last (sep : string) (skip : nat) (s : string) : option string :=
  match s with
  | EmptyString => None
  | String c s' =>
      match skip with
      | S k => after_last sep k s'
      | O =>
          if String.prefix sep s
          then match after_last sep (String.length sep - 1) s' with
               | Some rest => Some rest
               | None => Some (drop_chars (String.length sep) s)
               end
          else after_last sep 0 s'
      end
  end.

(** [s.split(sep)[-1]] for a non-empty [sep]. *)
Definition last_part (sep s : string) : string :=
  match after_last sep 0 s with
  | Some rest => rest
  | None => s
  end.

(** The name [run_onnx_op] looks the operator class up under: the namespace
    prefix is removed. *)
Definition operator_name (op_name : string) : string :=
  if contains "onnx::" op_name then last_part "::" op_name else op_name.

Inductive error := ValueError.

Section Wrapper.

(** The values that are passed around. *)
Variable A : Type.

(** [k in d] for a dict, [k in l] for a list, [del d[k]]. *)
Definition has_key (k : string) (d : list (string * A)) : bool :=
  match dict_get k d with Some _ => true | None => false end.

Definition mem (k : string) (l : list string) : bool :=
  existsb (String.eqb k) l.

Definition dict_del (k : string) (d : list (string * A)) : list (string * A) :=
  List.filter (fun entry => negb (String.eqb (fst entry) k)) d.

(** The keyword arguments that name an input. *)
Definition keyword_inputs (input_names : list string) (kwargs : list (string * A))
  : list (string * A) :=
  foldl (fun inputs_dict entry =>
           if mem (fst entry) input_names
           then dict_set (fst entry) (snd entry) inputs_dict
           else inputs_dict)
        [] kwargs.

(** The inputs that are still free take the positional arguments, in the
    order of the schema; [n] is [len(input_names)]. *)
Fixpoint positional_inputs (names : list string) (n : nat) (args : list A)
    (arg_i : nat) (inputs_dict : list (string * A))
  : list (string * A) * nat :=
  match names with
  | [] => (inputs_dict, arg_i)
  | inp_name :: rest =>
      if negb (has_key inp_name inputs_dict)
      then
        if Nat.ltb arg_i (List.length args) && Nat.ltb arg_i n
        then match nth_error args arg_i with
             | Some a =>
                 positional_inputs rest n args (S arg_i)
                   (dict_set inp_name a inputs_dict)
             | None => positional_inputs rest n args arg_i inputs_dict
             end
        else positional_inputs rest n args arg_i inputs_dict
      else positional_inputs rest n args arg_i inputs_dict
  end.

(** The inputs are taken out of the keyword arguments. *)
Definition without_inputs (inputs_dict kwargs : list (string * A))
  : list (string * A) :=
  foldl (fun kwargs entry =>
           if has_key (fst entry) kwargs then dict_del (fst entry) kwargs
           else kwargs)
        kwargs inputs_dict.

(** The [while] loop for one remaining argument: pass the attributes that
    have a value, give the argument to the first that has none and stay on
    it.  The attributes from index [attribute_i] on stand for
    [attribute_i]. *)
Fixpoint assign_attribute (attributes : list string) (arg : A)
    (kwargs : list (string * A)) : list string * list (string * A) :=
  match attributes with
  | [] => ([], kwargs)
  | att_name :: rest =>
      if has_key att_name kwargs
      then assign_attribute rest arg kwargs
      else (att_name :: rest, dict_set att_name arg kwargs)
  end.

Definition assign_attributes (attributes : list string) (args : list A)
    (kwargs : list (string * A)) : list (string * A) :=
  snd (foldl (fun st arg => assign_attribute (fst st) arg (snd st))
             (attributes, kwargs) args).

(** What [onnx_wrapper] calls [run_onnx_op] with, the inputs and the
    attributes, unless a keyword is left that is no attribute. *)
Definition onnx_wrapper (schema : OpSchema) (args : list A)
    (kwargs : list (string * A))
  : list (string * A) * list (string * A) + error :=
  let input_names := s_inputs schema in
  let inputs_dict := keyword_inputs input_names kwargs in
  let '(inputs_dict, arg_i) :=
    positional_inputs input_names (List.length input_names) args 0 inputs_dict in
  let kwargs := without_inputs inputs_dict kwargs in
  let kwargs := assign_attributes (s_attributes schema) (skipn arg_i args) kwargs in
  if forallb (fun entry => mem (fst entry) (s_attributes schema)) kwargs
  then inl (inputs_dict, kwargs)
  else inr ValueError.

End Wrapper.

End Onnx.

Arguments Onnx.has_key {A} k d.
Arguments Onnx.dict_del {A} k d.
Arguments Onnx.keyword_inputs {A} input_names kwargs.
Arguments Onnx.positional_inputs {A} names n args arg_i inputs_dict.
Arguments Onnx.without_inputs {A} inputs_dict kwargs.
Arguments Onnx.assign_attribute {A} attributes arg kwargs.
Arguments Onnx.assign_attributes {A} attributes args kwargs.
Arguments Onnx.onnx_wrapper {A} schema args kwargs.

(** * Loading the scripts: [_script_to_model] and [mdf_to_pytorch]

    Writing the script to a file, executing it as a module and taking its
    [model] is the work of the interpreter; so is [model.eval()].  The path
    of the file and the loop over the scripts are the exporter's own. *)

(** [s.split(c)] for a one-character separator. *)
Fixpoint split_on (c : ascii) (s : string) : list string :=
  match s with
  | EmptyString => [EmptyString]
  | String x s' =>
      if Ascii.eqb x c then EmptyString :: split_on c s'
      else match split_on c s' with
           | h :: t => String x h :: t
           | [] => [String x EmptyString]
           end
  end.

(** [l[:-2]] *)
Definition all_but_last_two {A} (l : list A) : list A :=
  firstn (List.length l - 2) l.

(** The file a script is written to. *)
Definition module_path (model_input model_id1 : string) : string :=
  let path_list := all_but_last_two (split_on "/" model_input) ++ ["PyTorch/"] in
  let out_filename := join "/" path_list in
  out_filename +:+ model_id1 +:+ "_pytorch.py".

(** What [mdf_to_pytorch] can stop with: an exception of the script
    generation, the [NameError] of an unbound global, an exception raised
    while the written script is executed. *)
Inductive api_exn (E : Type) :=
| ExportError (e : exn)
| NameError
| ScriptError (e : E).
Arguments ExportError {E} e.
Arguments NameError {E}.
Arguments ScriptError {E} e.

Section Api.

Variable set_order : list string -> list string.
Variable repr_str : string -> string.
Variable mdf_functions : gmap string string.
Variable ordered_edges : Graph -> list Edge.
Variable get_node : Graph -> string -> option Node.

(** The module global [model_input]: it is assigned in the
    [if __name__ == "__main__"] block only, so it is unbound when the module
    is imported. *)
Variable model_input : option string.

(** The PyTorch modules and the exceptions of a script; writing the script
    at a path, executing it and taking its [model]; [model.eval()]. *)
Variable T : Type.
Variable E : Type.
Variable exec_module : string -> string -> T + E.
Variable eval_mode : T -> T.

Definition _script_to_model (script model_id1 : string) : T + api_exn E :=
  match model_input with
  | None => inr NameError
  | Some input =>
      match exec_module (module_path input model_id1) script with
      | inl model => inl model
      | inr e => inr (ScriptError e)
      end
  end.

(** The loop over [scripts.items()]. *)
Fixpoint load_scripts (model_id1 : string) (eval_models : bool)
    (scripts : list (string * string)) (models : list (string * T))
  : list (string * T) + api_exn E :=
  match scripts with
  | [] => inl models
  | (script_name, script) :: rest =>
      match _script_to_model script model_id1 with
      | inl model =>
          let model := if eval_models then eval_mode model else model in
          load_scripts model_id1 eval_models rest (dict_set script_name model models)
      | inr e => inr e
      end
  end.

Definition mdf_to_pytorch (mdf_model : Model) (eval_models : bool)
  : globals -> (list (string * T) + api_exn E) * globals :=
  fun g =>
    match _generate_scripts_from_model set_order repr_str mdf_functions
            ordered_edges get_node mdf_model g with
    | (Ok scripts, g') =>
        (load_scripts (m_id mdf_model) eval_models scripts [], g')
    | (Raise e, g') => (inr (ExportError e), g')
    end.

End Api.
(** ** A concrete runtime

    Sets iterated in insertion order, [repr] of a plain [str] in single
    quotes, [get_node] by linear search, the scheduler keeping the declared
    order of the edges, and a registry holding the standard [linear]. *)

Definition insertion_order (s : list string) : list string := s.

Definition single_quoted (s : string) : string := "'" +:+ s +:+ "'".

Definition find_node (graph : Graph) (id : string) : option Node :=
  List.find (fun n => String.eqb (n_id n) id) (g_nodes graph).

Definition declared_edges (graph : Graph) : list Edge := g_edges graph.

Definition standard_functions : gmap string string :=
  {[ "linear" := "(variable0 * slope + intercept)" ]}.

(** Builders for the examples. *)

Definition constant (id : string) (value : pyval) : Param :=
  {| p_id := id; p_value := value; p_default_initial_value := VNone;
     p_time_derivative := None; p_function := None; p_args := None;
     p_is_stateful := false |}.

Definition integrator (id : string) (initial : pyval) (derivative : string) : Param :=
  {| p_id := id; p_value := VNone; p_default_initial_value := initial;
     p_time_derivative := Some derivative; p_function := None; p_args := None;
     p_is_stateful := true |}.

Definition function_param (id f : string) (args : list (string * pyval)) : Param :=
  {| p_id := id; p_value := VNone; p_default_initial_value := VNone;
     p_time_derivative := None; p_function := Some f; p_args := Some args;
     p_is_stateful := false |}.

Definition out (value : string) : OutputPort :=
  {| op_id := "out_port"; op_value := Some value |}.

Definition bare_node (id : string) : Node :=
  {| n_id := id; n_input_ports := []; n_functions := []; n_parameters := [];
     n_output_ports := [] |}.

Definition edge (sender receiver : string) : Edge :=
  {| e_sender := sender; e_receiver := receiver; e_parameters := None |}.

Definition node_with_functions : Node :=
  {| n_id := "A"; n_input_ports := [];
     n_functions := ["linear_1"];
     n_parameters := [constant "level" (VInt 3); integrator "x" (VInt 0) "1"];
     n_output_ports := [out "level"] |}.


(** A node whose only function parameter names a function the registry does
    not have, and one where such a parameter follows a known one. *)

Definition node_unknown_first : Node :=
  {| n_id := "N"; n_input_ports := []; n_functions := [];
     n_parameters := [function_param "z" "no_such_function" []];
     n_output_ports := [out "z"] |}.

Definition node_unknown_second : Node :=
  {| n_id := "N"; n_input_ports := []; n_functions := [];
     n_parameters :=
       [function_param "y" "linear"
          [("variable0", VInt 1); ("slope", VInt 2); ("intercept", VInt 3)];
        function_param "z" "no_such_function" []];
     n_output_ports := [out "z"] |}.

(** A fan-in graph: [A] and [B] both feed [C]. *)

Definition fan_in_graph : Graph :=
  {| g_id := "fan_in";
     g_nodes := [bare_node "A"; bare_node "B"; bare_node "C"];
     g_edges := [edge "A" "C"; edge "B" "C"] |}.

Definition fan_in_model : Model :=
  {| m_id := "m"; m_graphs := [fan_in_graph] |}.

(** A chain with a node no edge touches. *)

Definition chain_and_loner : Graph :=
  {| g_id := "chain";
     g_nodes := [bare_node "A"; bare_node "B"; bare_node "L"];
     g_edges := [edge "A" "B"] |}.

(** The two-node cycle [A -> B -> A]. *)

Definition cycle_graph : Graph :=
  {| g_id := "cycle";
     g_nodes := [bare_node "A"; bare_node "B"];
     g_edges := [edge "A" "B"; edge "B" "A"] |}.

Definition cycle_model : Model :=
  {| m_id := "m"; m_graphs := [cycle_graph] |}.

(** A model whose source node declares [input_level], and two models that
    share no node: the first declares a parameter [w], the second reads an
    input port [weight]. *)

Definition level_model : Model :=
  {| m_id := "m";
     m_graphs :=
       [{| g_id := "g";
           g_nodes :=
             [{| n_id := "A"; n_input_ports := []; n_functions := [];
                 n_parameters := [constant "input_level" (VInt 3)];
                 n_output_ports := [out "input_level"] |};
              bare_node "B"];
           g_edges := [edge "A" "B"] |}] |}.

Definition model_with_w : Model :=
  {| m_id := "first";
     m_graphs :=
       [{| g_id := "g1";
           g_nodes :=
             [{| n_id := "P"; n_input_ports := []; n_functions := [];
                 n_parameters := [constant "w" (VInt 1)];
                 n_output_ports := [out "w"] |}];
           g_edges := [] |}] |}.

Definition model_with_weight : Model :=
  {| m_id := "second";
     m_graphs :=
       [{| g_id := "g2";
           g_nodes :=
             [{| n_id := "Q"; n_input_ports := [{| ip_id := "weight" |}];
                 n_functions := [];
                 n_parameters := [constant "gain" (VInt 2)];
                 n_output_ports := [out "weight*gain"] |}];
           g_edges := [] |}] |}.

(** The exporter on the concrete runtime. *)
Definition export (mdf_model : Model) : py (list (string * string)) :=
  _generate_scripts_from_model insertion_order single_quoted
    standard_functions declared_edges find_node mdf_model.

(** The predecessor map of the fan-in graph when the edge from [B] has
    weight 2, and an integer runtime for the main [forward]: a unit returns
    the sum of its arguments plus one and counts its calls. *)

Definition fan_in_d_e : list (string * list (string * pyval)) :=
  [("A", []); ("B", []); ("C", [("A", VNone); ("B", VInt 2)])].

Definition int_tensor (w : pyval) : Z :=
  match w with VInt z => z | _ => 1%Z end.

Definition counting_unit (node : string) (args : list Z) (calls : nat) : Z * nat :=
  (foldr Z.add 1%Z args, S calls).

(** A stateful parameter with both a value expression and a time
    derivative, and the node of a counter next to a constant. *)

Definition value_and_derivative : Param :=
  {| p_id := "x"; p_value := VStr "x + 1"; p_default_initial_value := VNone;
     p_time_derivative := Some "1"; p_function := None; p_args := None;
     p_is_stateful := true |}.

Definition direct_update : Param :=
  {| p_id := "count"; p_value := VStr "count + 1";
     p_default_initial_value := VNone;
     p_time_derivative := None; p_function := None; p_args := None;
     p_is_stateful := true |}.

Definition integrating_parameters : list Param :=
  [constant "level" (VInt 3); integrator "x" (VInt 0) "2"].

Definition seen_level_x : globals :=
  {| not_self := []; param_set := ["level"; "x"]; graph_input := [] |}.

(** A runtime that knows the integer literals 1 and 2 only. *)
Definition literal_eval (names self : string -> Z) (e : string) : Z :=
  if String.eqb e "2" then 2%Z else if String.eqb e "1" then 1%Z else 0%Z.

Definition integrating_node : Node :=
  {| n_id := "I"; n_input_ports := []; n_functions := [];
     n_parameters := integrating_parameters;
     n_output_ports := [out "x"] |}.

(** The fan-in graph again, the edge from [B] now with weight 2. *)
Definition weighted_fan_in : Graph :=
  {| g_id := "fan_in";
     g_nodes := [bare_node "A"; bare_node "B"; bare_node "C"];
     g_edges := [edge "A" "C";
                 {| e_sender := "B"; e_receiver := "C";
                    e_parameters := Some [("weight", VInt 2)] |}] |}.

(** A model of two graphs on different nodes; the second has an edge. *)
Definition two_graph_model : Model :=
  {| m_id := "m";
     m_graphs :=
       [{| g_id := "first"; g_nodes := [bare_node "A"]; g_edges := [] |};
        {| g_id := "second"; g_nodes := [bare_node "P"; bare_node "Q"];
           g_edges := [edge "P" "Q"] |}] |}.

(** A model of two graphs on the same two nodes. *)
Definition twin_graph_model : Model :=
  {| m_id := "m";
     m_graphs :=
       [{| g_id := "first"; g_nodes := [bare_node "A"; bare_node "B"];
           g_edges := [] |};
        {| g_id := "second"; g_nodes := [bare_node "A"; bare_node "B"];
           g_edges := [edge "A" "B"] |}] |}.

(** A stateful parameter whose value is a number, in a node of its own. *)
Definition numeric_state : Param :=
  {| p_id := "n"; p_value := VInt 5; p_default_initial_value := VInt 0;
     p_time_derivative := None; p_function := None; p_args := None;
     p_is_stateful := true |}.

Definition numeric_node : Node :=
  {| n_id := "N"; n_input_ports := []; n_functions := [];
     n_parameters := [constant "level" (VInt 3); numeric_state];
     n_output_ports := [out "n"] |}.

(** A node with a parameter and no output port. *)
Definition portless_node : Node :=
  {| n_id := "N"; n_input_ports := []; n_functions := [];
     n_parameters := [constant "level" (VInt 3)];
     n_output_ports := [] |}.

(** A source node that declares [input_level] and a gain. *)
Definition input_node : Node :=
  {| n_id := "A"; n_input_ports := []; n_functions := [];
     n_parameters := [constant "input_level" (VInt 3); constant "gain" (VInt 2)];
     n_output_ports := [out "input_level*gain"] |}.

(** A chain of three nodes. *)
Definition chain_edges : list Edge := [edge "A" "B"; edge "B" "C"].

(** The store a first compilation of [level_model] leaves. *)
Definition after_level_model : globals :=
  {| not_self := []; param_set := ["input_level"]; graph_input := [VInt 3] |}.

(** The nodes of [level_model], and the store its second compilation
    leaves. *)
Definition level_nodes : list Node :=
  [{| n_id := "A"; n_input_ports := []; n_functions := [];
      n_parameters := [constant "input_level" (VInt 3)];
      n_output_ports := [out "input_level"] |};
   bare_node "B"].

Definition after_second_run : globals :=
  {| not_self := []; param_set := ["input_level"];
     graph_input := [VInt 3; VInt 3] |}.

(** The schema of a convolution, cut down to three inputs and three
    attributes. *)
Definition conv_schema : Onnx.OpSchema :=
  {| Onnx.s_name := "Conv";
     Onnx.s_doc := "The convolution operator.";
     Onnx.s_inputs := ["X"; "W"; "B"];
     Onnx.s_attributes := ["pads"; "strides"; "group"];
     Onnx.s_outputs := ["Y"] |}.

(** ** Facts about strings and the monad *)

Lemma string_app_cons x (a b : string) : String x a +:+ b = String x (a +:+ b).
Proof. reflexivity. Qed.

Lemma string_app_nil_l (a : string) : "" +:+ a = a.
Proof. reflexivity. Qed.

Lemma string_app_assoc (a b c : string) : (a +:+ b) +:+ c = a +:+ (b +:+ c).
Proof.
  induction a as [| x a IH]; [reflexivity |].
  rewrite !string_app_cons. now rewrite IH.
Qed.

Lemma string_app_nil_r (a : string) : a +:+ "" = a.
Proof.
  induction a as [| x a IH]; [reflexivity |].
  rewrite string_app_cons. now rewrite IH.
Qed.

Lemma prefix_app (a b : string) : String.prefix a (a +:+ b) = true.
Proof.
  induction a as [| x a IH]; [now destruct b |].
  rewrite string_app_cons. simpl.
  destruct (ascii_dec x x); [assumption | congruence].
Qed.

Lemma bind_ok {A B} (c : py A) (k : A -> py B) g a g' :
  c g = (Ok a, g') -> bind c k g = k a g'.
Proof. intros H. unfold bind. now rewrite H. Qed.
(** ** Nodes without a step operation *)

(** C10.  A node whose parameter list is empty, or whose node-level function
    list is not empty, gets the bare class header and nothing else: no
    [__init__], no [forward], no execution counter; the store is left as it
    was. *)
Theorem bare_header_without_step :
  forall set_order mdf_functions name node_dict execution_order g,
    n_parameters node_dict = [] \/ n_functions node_dict <> [] ->
    get_module_declaration_text set_order mdf_functions
      name node_dict execution_order g
    = (Ok (nl +:+ "class " +:+ name +:+ "(nn.Module):"), g).
Proof.
  intros so reg name node eo g H.
  unfold get_module_declaration_text.
  destruct H as [H | H].
  - rewrite H. reflexivity.
  - destruct (n_functions node) as [| f fs]; [congruence |].
    rewrite andb_false_r. reflexivity.
Qed.

Lemma bare_header_without_step_witness :
  get_module_declaration_text insertion_order standard_functions
    "A" node_with_functions [] at_import
  = (Ok (nl +:+ "class A(nn.Module):"), at_import).
Proof.
  apply (bare_header_without_step insertion_order standard_functions
           "A" node_with_functions [] at_import).
  right. discriminate.
Defined.

(** ** Function parameters outside the registry *)

(** What a function parameter writes when its function is not in the
    registry: the test [parameter.function in mdf_functions] has no [else],
    so [exp] is read as the previous turn left it. *)
Lemma forward_function_unknown :
  forall set_order (mdf_functions : gmap string string) parameter f exp g,
    p_function parameter = Some f ->
    f <> "" ->
    mdf_functions !! f = None ->
    forward_function set_order mdf_functions parameter exp g
    = match exp with
      | None => (Raise UnboundLocalError, g)
      | Some (VStr e) => (Ok ([Local (p_id parameter) e], exp), g)
      | Some _ => (Raise TypeError, g)
      end.
Proof.
  intros so reg p f exp g Hf Hne Hreg.
  unfold forward_function. rewrite Hf.
  assert (Ht : truthy_ostr (Some f) = true).
  { unfold truthy_ostr; simpl. destruct (String.eqb_spec f ""); [congruence | reflexivity]. }
  rewrite Ht, Hreg.
  destruct exp as [[| z | t b | e] |]; reflexivity.
Qed.

(** C9.  The exporter has no [UnknownFunction] error.  A node whose first
    function parameter is unknown stops with [UnboundLocalError]; when the
    unknown function follows a known one the class is written without any
    error, and the unknown parameter [z] gets the expression of [y]. *)
Theorem unknown_function_not_rejected :
  fst (get_module_declaration_text insertion_order standard_functions
         "N" node_unknown_first [] at_import)
  = Raise UnboundLocalError
  /\ fst (get_module_declaration_text insertion_order standard_functions
            "N" node_unknown_second [] at_import)
     = Ok (nl +:+ "class N(nn.Module):"
             +:+ nl +:+ tab +:+ "def __init__(self,):"
             +:+ nl +:+ tab +:+ tab +:+ "super().__init__()"
             +:+ nl +:+ tab +:+ tab +:+ "self.execution_count=torch.tensor(0)"
             +:+ nl +:+ tab +:+ "def forward(self, ):"
             +:+ nl +:+ tab +:+ tab
             +:+ "self.execution_count=self.execution_count+torch.tensor(1)"
             +:+ nl +:+ tab +:+ tab +:+ "y=(1 * 2 + 3)"
             +:+ nl +:+ tab +:+ tab +:+ "z=(1 * 2 + 3)"
             +:+ nl +:+ tab +:+ tab +:+ "return z").
Proof. split; vm_compute; reflexivity. Qed.

(** ** Identifier rewriting: [sym] and [func_args] *)

Lemma contains_prefix (sub s : string) :
  String.prefix sub s = true -> contains sub s = true.
Proof. intros H. destruct s; cbn [contains]; rewrite H; reflexivity. Qed.

Lemma replace_from_skip (old new a rest : string) :
  replace_from old new (String.length a) (a +:+ rest)
  = replace_from old new 0 rest.
Proof.
  induction a as [| x a IH]; [reflexivity |].
  rewrite string_app_cons. simpl. exact IH.
Qed.

(** An occurrence at the scan position is replaced, whatever follows it. *)
Lemma replace_at_prefix (old new rest : string) :
  old <> "" ->
  replace old new (old +:+ rest) = new +:+ replace old new rest.
Proof.
  intros Hne. destruct old as [| c old']; [congruence |].
  unfold replace. rewrite string_app_cons.
  cbn [replace_from].
  rewrite <- string_app_cons, prefix_app.
  cbn [String.length]. rewrite Nat.sub_succ, Nat.sub_0_r.
  now rewrite replace_from_skip.
Qed.

(** Where there is no occurrence at the scan position the scan moves on by
    one character, whatever that character is. *)
Lemma replace_skip_char (old new : string) c s :
  old <> "" ->
  String.prefix old (String c s) = false ->
  replace old new (String c s) = String c (replace old new s).
Proof.
  intros Hne Hp. destruct old as [| c' old']; [congruence |].
  unfold replace. cbn [replace_from]. now rewrite Hp.
Qed.




(** ** The execution order *)

(** With no ordered edge the order is the declaration order of the nodes. *)
Lemma execution_order_no_edges (nodes : list Node) :
  execution_order_of nodes [] = map n_id nodes.
Proof. reflexivity. Qed.

(** With ordered edges it is the first sender followed by every receiver. *)
Lemma execution_order_edges (nodes : list Node) e edges :
  execution_order_of nodes (e :: edges)
  = e_sender e :: e_receiver e :: map e_receiver edges.
Proof. reflexivity. Qed.

(** C1.  On the fan-in graph [A -> C], [B -> C] the order is not
    topological, whichever of the two edges the scheduler puts first: only
    the sender of the first edge is ever added, so the other sender has no
    position at all and [C] is listed twice.  On the chain [A -> B] with a
    third node [L] that no edge touches, [L] is left out of the order.  The
    main [forward] written for the fan-in graph then reads [val_B] without
    initialising it. *)
Theorem execution_order_misses_senders :
  execution_order_of (g_nodes fan_in_graph) [edge "A" "C"; edge "B" "C"]
  = ["A"; "C"; "C"]
  /\ execution_order_of (g_nodes fan_in_graph) [edge "B" "C"; edge "A" "C"]
     = ["B"; "C"; "C"]
  /\ topological ["A"; "C"; "C"] (g_edges fan_in_graph) = false
  /\ topological ["B"; "C"; "C"] (g_edges fan_in_graph) = false
  /\ execution_order_of (g_nodes chain_and_loner) (g_edges chain_and_loner)
     = ["A"; "B"]
  /\ generate_main_forward (g_nodes fan_in_graph) ["A"; "C"; "C"]
       [("A", []); ("B", []); ("C", [("A", VNone); ("B", VNone)])]
     = Ok (nl +:+ tab +:+ "def forward(self, input):"
             +:+ nl +:+ tab +:+ tab +:+ " val_A=torch.zeros_like(input)"
             +:+ nl +:+ tab +:+ tab +:+ " val_C=torch.zeros_like(input)"
             +:+ nl +:+ tab +:+ tab +:+ " val_C=torch.zeros_like(input)"
             +:+ nl +:+ nl +:+ tab +:+ tab +:+ " val_A=val_A+self.A()"
             +:+ nl +:+ nl +:+ tab +:+ tab +:+ " val_B=val_B+self.B()"
             +:+ nl +:+ tab +:+ tab +:+ " val_C=val_C+self.C(val_A)"
             +:+ nl +:+ tab +:+ tab +:+ " val_C=val_C+self.C(val_B)"
             +:+ nl +:+ nl +:+ tab +:+ tab +:+ " return val_A,val_C,val_C,").
Proof. repeat split; vm_compute; reflexivity. Qed.

(** ** No cycle detection *)

Lemma dict_get_is_Some {A} k (d : list (string * A)) :
  is_Some (dict_get k d) <-> In k (map fst d).
Proof.
  induction d as [| [k' v'] d IH]; simpl.
  - split; [intros [x Hx]; discriminate | tauto].
  - destruct (String.eqb_spec k' k) as [-> | Hne].
    + split; [auto | eauto].
    + rewrite IH. split; [auto | intros [H | H]; [congruence | assumption]].
Qed.

(** Writing to a key that is there keeps the keys and their order. *)
Lemma dict_set_keys_present {A} k (v : A) (d : list (string * A)) :
  In k (map fst d) -> map fst (dict_set k v d) = map fst d.
Proof.
  induction d as [| [k' v'] d IH]; simpl; [tauto |].
  intros H. destruct (String.eqb_spec k' k) as [-> | Hne]; simpl; [reflexivity |].
  f_equal. apply IH. destruct H; [congruence | assumption].
Qed.

Lemma dict_set_keys {A} k (v : A) (d : list (string * A)) k' :
  In k' (map fst (dict_set k v d)) <-> k' = k \/ In k' (map fst d).
Proof.
  induction d as [| [k0 v0] d IH]; simpl.
  - intuition.
  - destruct (String.eqb_spec k0 k) as [-> | Hne]; simpl.
    + intuition.
    + rewrite IH. intuition.
Qed.

Lemma d_e_init_keys (nodes : list Node) k :
  In k (map fst (d_e_init nodes)) <-> In k (map n_id nodes).
Proof.
  unfold d_e_init.
  assert (G : forall acc : list (string * list (string * pyval)),
             In k (map fst (foldl (fun d n => dict_set (n_id n) [] d) acc nodes))
             <-> In k (map fst acc) \/ In k (map n_id nodes)).
  { induction nodes as [| n nodes IH]; intros acc; simpl.
    - tauto.
    - rewrite IH, dict_set_keys. intuition. }
  rewrite G. simpl. tauto.
Qed.

Lemma d_e_edges_ok get_node graph edges :
  forall d_e,
    edges_resolve get_node graph (map fst d_e) edges ->
    exists d_e', d_e_edges get_node graph edges d_e = Ok d_e'
                 /\ map fst d_e' = map fst d_e.
Proof.
  induction edges as [| e edges IH]; intros d_e H; simpl.
  - eauto.
  - destruct (H e (or_introl eq_refl)) as (s & r & Hs & Hr & Hin).
    unfold d_e_edge. rewrite Hs, Hr.
    destruct (proj2 (dict_get_is_Some _ _) Hin) as [inner Hinner].
    rewrite Hinner.
    set (d1 := dict_set (n_id r) _ d_e).
    assert (Hk : map fst d1 = map fst d_e) by (apply dict_set_keys_present; assumption).
    destruct (IH d1) as (d' & Hd' & Hkeys).
    { rewrite Hk. intros e' He'. apply H. now right. }
    exists d'. split; [assumption | congruence].
Qed.

Lemma forward_names_lookup d_e k :
  In k (map fst d_e) -> forward_names d_e !! k = Some ("val_" +:+ k).
Proof.
  unfold forward_names.
  assert (G : forall acc : gmap string string,
             (In k (map fst d_e) \/ acc !! k = Some ("val_" +:+ k)) ->
             foldl (fun d (entry : string * list (string * pyval)) =>
                      <[fst entry := "val_" +:+ fst entry]> d) acc d_e !! k
             = Some ("val_" +:+ k)).
  { induction d_e as [| [k' deps] d_e IH]; intros acc H; simpl.
    - destruct H as [[] | H]; assumption.
    - apply IH. simpl in H.
      destruct (decide (k' = k)) as [-> | Hne].
      + right. apply lookup_insert_eq.
      + destruct H as [[H | H] | H]; [congruence | now left |].
        right. now rewrite lookup_insert_ne. }
  intros H. apply G. now left.
Qed.

Lemma return_text_ok d_e execution_order :
  (forall k, In k execution_order -> In k (map fst d_e)) ->
  exists t, return_text (forward_names d_e) execution_order = Ok t.
Proof.
  induction execution_order as [| n rest IH]; intros H; simpl.
  - eauto.
  - rewrite forward_names_lookup by (apply H; now left).
    destruct IH as [t Ht]; [intros k Hk; apply H; now right |].
    rewrite Ht. eauto.
Qed.

Lemma generate_main_forward_ok nodes execution_order d_e :
  (forall k, In k execution_order -> In k (map fst d_e)) ->
  exists t, generate_main_forward nodes execution_order d_e = Ok t.
Proof.
  intros H. unfold generate_main_forward.
  destruct execution_order as [| n rest]; simpl negb; cbv iota.
  - simpl. eauto.
  - destruct (return_text_ok d_e (n :: rest) H) as [t Ht].
    rewrite Ht. eauto.
Qed.

Lemma execution_order_in_ids nodes edges k :
  (forall e, In e edges ->
     In (e_sender e) (map n_id nodes) /\ In (e_receiver e) (map n_id nodes)) ->
  In k (execution_order_of nodes edges) -> In k (map n_id nodes).
Proof.
  intros H. destruct edges as [| e edges].
  - rewrite execution_order_no_edges. auto.
  - rewrite execution_order_edges.
    intros [Hk | Hk].
    + subst k. apply H. now left.
    + change (In k (map e_receiver (e :: edges))) in Hk.
      apply in_map_iff in Hk. destruct Hk as (e' & <- & He').
      now apply H.
Qed.

Lemma build_script_ok set_order repr_str mdf_functions
    nodes execution_order model_id1 d_e g decls g' t :
  for_text (fun node =>
              get_module_declaration_text set_order mdf_functions
                (n_id node) node execution_order) nodes g
  = (Ok decls, g') ->
  generate_main_forward nodes execution_order d_e = Ok t ->
  exists script,
    build_script set_order repr_str mdf_functions
      nodes execution_order model_id1 d_e g = (Ok script, g').
Proof.
  intros Hdecl Ht. unfold build_script.
  rewrite (bind_ok _ _ g decls g') by exact Hdecl.
  rewrite (bind_ok _ _ g' t g') by (unfold lift; now rewrite Ht).
  destruct (Nat.eqb (length nodes) 1).
  - eexists. reflexivity.
  - rewrite (bind_ok _ _ g' (graph_input g') g') by reflexivity.
    eexists. reflexivity.
Qed.




(** ** The module-level accumulators *)

Lemma extends_refl g : extends g g.
Proof. repeat split; reflexivity. Qed.

Lemma extends_trans g1 g2 g3 : extends g1 g2 -> extends g2 g3 -> extends g1 g3.
Proof.
  intros (H0 & H1 & H2) (H3 & H4 & H5).
  split; [congruence |]. split; etransitivity; eassumption.
Qed.

Lemma grows_ret {A} (a : A) : grows (ret a).
Proof. intros g. apply extends_refl. Qed.

Lemma grows_raise {A} e : grows (@raise A e).
Proof. intros g. apply extends_refl. Qed.

Lemma grows_lift {A} (o : outcome A) : grows (lift o).
Proof. intros g. apply extends_refl. Qed.

Lemma grows_bind {A B} (c : py A) (k : A -> py B) :
  grows c -> (forall a, grows (k a)) -> grows (bind c k).
Proof.
  intros Hc Hk g. unfold bind. specialize (Hc g).
  destruct (c g) as [[a | e] g1]; simpl in *; [| assumption].
  eapply extends_trans; [eassumption | apply Hk].
Qed.

Lemma grows_param_set_add x : grows (param_set_add x).
Proof.
  intros g. split; [reflexivity |]. split; simpl; [| reflexivity].
  unfold set_add. case_bool_decide; [reflexivity | now apply prefix_app_r].
Qed.

Lemma grows_graph_input_append v : grows (graph_input_append v).
Proof.
  intros g. split; [reflexivity |].
  split; simpl; [reflexivity | now apply prefix_app_r].
Qed.

Lemma grows_get_not_self : grows get_not_self.
Proof. intros g. apply extends_refl. Qed.

Lemma grows_get_param_set : grows get_param_set.
Proof. intros g. apply extends_refl. Qed.

Lemma grows_get_graph_input : grows get_graph_input.
Proof. intros g. apply extends_refl. Qed.

Lemma grows_sym set_order v : grows (sym set_order v).
Proof. intros g. apply extends_refl. Qed.

Lemma grows_for_text {A} (f : A -> py string) l :
  (forall x, grows (f x)) -> grows (for_text f l).
Proof.
  intros Hf. induction l as [| x l IH]; simpl.
  - apply grows_ret.
  - apply grows_bind; [apply Hf | intros t].
    apply grows_bind; [exact IH | intros ts]. apply grows_ret.
Qed.

(** Split the goal along the binds and the tests of a definition. *)
Ltac grows_step :=
  first
    [ apply grows_ret | apply grows_raise | apply grows_lift
    | apply grows_param_set_add | apply grows_graph_input_append
    | apply grows_get_not_self
    | apply grows_get_param_set | apply grows_get_graph_input
    | apply grows_sym
    | apply grows_bind; [| intros ?]
    | match goal with
      | |- grows (if ?b then _ else _) => destruct b
      | |- grows (match ?x with _ => _ end) => destruct x
      end ].

Lemma grows_init_arg parameter : grows (init_arg parameter).
Proof. unfold init_arg. repeat grows_step. Qed.

Lemma grows_forward_stateful set_order parameter :
  grows (forward_stateful set_order parameter).
Proof. unfold forward_stateful. repeat grows_step. Qed.

Lemma grows_forward_function set_order mdf_functions parameter exp :
  grows (forward_function set_order mdf_functions parameter exp).
Proof. unfold forward_function, read_exp. repeat grows_step. Qed.

Lemma grows_forward_params set_order mdf_functions parameters :
  forall exp, grows (forward_params set_order mdf_functions parameters exp).
Proof.
  induction parameters as [| p rest IH]; intros exp; simpl.
  - apply grows_ret.
  - apply grows_bind; [apply grows_forward_stateful | intros t1].
    apply grows_bind; [apply grows_forward_function | intros r].
    apply grows_bind; [apply IH | intros ts]. apply grows_ret.
Qed.

Lemma grows_get_module_declaration_text set_order mdf_functions name node eo :
  grows (get_module_declaration_text set_order mdf_functions name node eo).
Proof.
  unfold get_module_declaration_text.
  destruct (negb (is_empty (n_parameters node)) && is_empty (n_functions node));
    [| apply grows_ret].
  apply grows_bind; [apply grows_for_text, grows_init_arg | intros args].
  apply grows_bind; [apply grows_forward_params | intros body].
  apply grows_bind; [| intros r; apply grows_ret].
  unfold forward_return. repeat grows_step.
Qed.

Lemma grows_build_script set_order repr_str mdf_functions nodes eo mid d_e :
  grows (build_script set_order repr_str mdf_functions nodes eo mid d_e).
Proof.
  unfold build_script.
  apply grows_bind;
    [apply grows_for_text; intros x; apply grows_get_module_declaration_text
    | intros decls].
  repeat grows_step.
Qed.

Lemma grows_generate_scripts_loop
    set_order repr_str mdf_functions ordered_edges get_node mdf_model graphs :
  forall scripts,
    grows (generate_scripts_loop set_order repr_str mdf_functions
             ordered_edges get_node mdf_model graphs scripts).
Proof.
  induction graphs as [| graph rest IH]; intros scripts; simpl.
  - apply grows_ret.
  - apply grows_bind; [| intros s; apply IH].
    unfold generate_script_for.
    apply grows_bind; [apply grows_lift | intros d_e].
    apply grows_bind; [apply grows_build_script | intros s; apply grows_ret].
Qed.

(** C8, what fails.  Compiling the same model twice in a row gives two
    different scripts: the second one feeds the collected input twice.  And
    the script of a model changes when another model, which declares a
    parameter [w], was compiled before it: the input port [weight] is then
    written [self.weight]. *)
Lemma compilation_depends_on_history :
  fst (export level_model at_import)
  <> fst (export level_model (snd (export level_model at_import)))
  /\ fst (export model_with_weight at_import)
     <> fst (export model_with_weight (snd (export model_with_w at_import))).
Proof.
  split; intros H.
  - apply (f_equal (has_text "dummy_input =torch.tensor(3, 3)")) in H.
    vm_compute in H. discriminate H.
  - apply (f_equal (has_text "return self.weight")) in H.
    vm_compute in H. discriminate H.
Qed.

(** C8, as the code has it.  The bookkeeping is process-wide and is never
    cleared: whatever the model, and whether the call returns or raises,
    the store it leaves holds the seen parameter ids and the collected
    inputs it started from, in the same order, followed by what this call
    added ([not_self] is left as it was).  The next call starts from that
    store. *)
Theorem accumulators_only_grow :
  forall set_order repr_str mdf_functions ordered_edges get_node mdf_model g,
    extends g
      (snd (_generate_scripts_from_model set_order repr_str mdf_functions
              ordered_edges get_node mdf_model g)).
Proof.
  intros. apply grows_generate_scripts_loop.
Qed.

(** ** The main [forward]: who is called, on what *)

Lemma node_calls_node entry c :
  In c (node_calls entry) -> call_node c = fst entry.
Proof.
  destruct entry as [node deps]. unfold node_calls.
  destruct deps as [| kv deps]; cbn [is_empty].
  - intros [<- | []]. reflexivity.
  - intros H. apply in_map_iff in H. destruct H as (kv' & <- & _). reflexivity.
Qed.

Lemma filter_node_calls_same entry :
  List.filter (fun c => String.eqb (call_node c) (fst entry)) (node_calls entry)
  = node_calls entry.
Proof.
  assert (G : forall l, (forall c, In c l -> call_node c = fst entry) ->
                List.filter (fun c => String.eqb (call_node c) (fst entry)) l = l).
  { induction l as [| c l IH]; intros H; simpl; [reflexivity |].
    rewrite (H c (or_introl eq_refl)), String.eqb_refl.
    f_equal. apply IH. intros c' Hc'. apply H. now right. }
  apply G. intros c. apply node_calls_node.
Qed.

Lemma filter_node_calls_other entry node :
  fst entry <> node ->
  List.filter (fun c => String.eqb (call_node c) node) (node_calls entry) = [].
Proof.
  intros Hne.
  assert (G : forall l, (forall c, In c l -> call_node c = fst entry) ->
                List.filter (fun c => String.eqb (call_node c) node) l = []).
  { induction l as [| c l IH]; intros H; simpl; [reflexivity |].
    rewrite (H c (or_introl eq_refl)).
    destruct (String.eqb_spec (fst entry) node); [congruence |].
    apply IH. intros c' Hc'. apply H. now right. }
  apply G. intros c. apply node_calls_node.
Qed.

Lemma forward_calls_cons entry d_e :
  forward_calls (entry :: d_e) = node_calls entry ++ forward_calls d_e.
Proof. reflexivity. Qed.

Lemma filter_calls_absent d_e node :
  ~ In node (map fst d_e) ->
  List.filter (fun c => String.eqb (call_node c) node) (forward_calls d_e) = [].
Proof.
  induction d_e as [| entry d_e IH]; intros H; [reflexivity |].
  rewrite forward_calls_cons.
  rewrite List.filter_app, filter_node_calls_other, IH; [reflexivity | |].
  - intros Hin. apply H. now right.
  - intros Heq. apply H. now left.
Qed.

(** In the whole loop the calls of a node are those of its own entry. *)
Lemma filter_forward_calls d_e node deps :
  List.NoDup (map fst d_e) ->
  In (node, deps) d_e ->
  List.filter (fun c => String.eqb (call_node c) node) (forward_calls d_e)
  = node_calls (node, deps).
Proof.
  induction d_e as [| entry d_e IH]; intros Hnd Hin; [destruct Hin |].
  rewrite forward_calls_cons.
  rewrite List.filter_app.
  cbn [map] in Hnd. apply List.NoDup_cons_iff in Hnd. destruct Hnd as [Hfresh Hnd].
  destruct Hin as [-> | Hin].
  - pose proof (filter_node_calls_same (node, deps)) as E.
    cbn [fst] in E. rewrite E.
    rewrite (filter_calls_absent d_e node) by exact Hfresh.
    apply app_nil_r.
  - assert (Hne : fst entry <> node).
    { intros Heq. apply Hfresh. rewrite Heq.
      apply in_map_iff. exists (node, deps). auto. }
    rewrite filter_node_calls_other by exact Hne.
    now apply IH.
Qed.

(** The text of the main [forward]: the header, one initialisation per
    entry of the execution order, the calls, the returned tuple. *)
Lemma generate_main_forward_text nodes execution_order d_e :
  execution_order <> [] ->
  (forall k, In k execution_order -> In k (map fst d_e)) ->
  exists t,
    return_text (forward_names d_e) execution_order = Ok t
    /\ generate_main_forward nodes execution_order d_e
       = Ok ((nl +:+ tab +:+ "def forward(self, input):"
                 +:+ concat (map zeros_text execution_order)
                 +:+ concat (map call_text (forward_calls d_e)))
               +:+ nl +:+ nl +:+ tab +:+ tab +:+ " return " +:+ t).
Proof.
  intros Hne Hin.
  destruct (return_text_ok d_e execution_order Hin) as [t Ht].
  exists t. split; [assumption |].
  unfold generate_main_forward.
  destruct execution_order as [| n rest]; [congruence |].
  cbn [is_empty negb]. rewrite Ht.
  f_equal. now rewrite !string_app_assoc.
Qed.

Lemma execution_order_nonempty (nodes : list Node) (edges : list Edge) :
  nodes <> [] -> execution_order_of nodes edges <> [].
Proof.
  intros Hn. destruct edges as [| e edges].
  - rewrite execution_order_no_edges. now destruct nodes.
  - rewrite execution_order_edges. discriminate.
Qed.

(** C5, what fails.  In the graph made of the single source node [A] the
    unit of [A] is called with no argument at all: the external [input] is
    only the shape of the zero the running value starts from. *)
Lemma source_node_gets_no_input :
  forward_calls [("A", [])] = [Call "A" None]
  /\ call_args (Call "A" None) <> ["input"]
  /\ generate_main_forward [bare_node "A"] ["A"] [("A", [])]
     = Ok (nl +:+ tab +:+ "def forward(self, input):"
             +:+ nl +:+ tab +:+ tab +:+ " val_A=torch.zeros_like(input)"
             +:+ nl +:+ nl +:+ tab +:+ tab +:+ " val_A=val_A+self.A()"
             +:+ nl +:+ nl +:+ tab +:+ tab +:+ " return val_A,").
Proof.
  split; [reflexivity |]. split; [discriminate |].
  vm_compute. reflexivity.
Qed.

(** C5, as the code has it.  In the main [forward] that is written for a
    non-empty execution order, [input] occurs in the signature and as the
    shape of the zeros only, and every source node, that is every node
    whose entry in the predecessor map is empty, is called exactly once,
    with an empty argument list, by the line
    [val_n=val_n+self.n()]; whatever runtime executes that line, the unit
    gets no value and the running values of the other nodes are not read. *)
Theorem source_nodes_called_without_argument :
  forall (nodes : list Node) (execution_order : list string)
         (d_e : list (string * list (string * pyval))) (node : string),
    execution_order <> [] ->
    (forall k, In k execution_order -> In k (map fst d_e)) ->
    List.NoDup (map fst d_e) ->
    In (node, []) d_e ->
    (exists t,
       generate_main_forward nodes execution_order d_e
       = Ok ((nl +:+ tab +:+ "def forward(self, input):"
                 +:+ concat (map zeros_text execution_order)
                 +:+ concat (map call_text (forward_calls d_e)))
               +:+ nl +:+ nl +:+ tab +:+ tab +:+ " return " +:+ t))
    /\ List.filter (fun c => String.eqb (call_node c) node) (forward_calls d_e)
       = [Call node None]
    /\ call_args (Call node None) = []
    /\ call_text (Call node None)
       = nl +:+ nl +:+ tab +:+ tab +:+ " val_" +:+ node +:+ "=val_" +:+ node
            +:+ "+self." +:+ node +:+ "()"
    /\ forall (V : Type) (mul : V -> V -> V) (tensor : pyval -> V)
              (vars : gmap string V),
         arg_values V mul tensor vars (Call node None) = Some [].
Proof.
  intros nodes eo d_e node Heo Hkeys Hnd Hin.
  split.
  { destruct (generate_main_forward_text nodes eo d_e Heo Hkeys) as (t & _ & Ht).
    eauto. }
  repeat split.
  apply (filter_forward_calls d_e node [] Hnd Hin).
Qed.

Lemma source_nodes_called_without_argument_witness :
  (exists t,
     generate_main_forward (g_nodes fan_in_graph) ["A"; "B"; "C"] fan_in_d_e
     = Ok ((nl +:+ tab +:+ "def forward(self, input):"
               +:+ concat (map zeros_text ["A"; "B"; "C"])
               +:+ concat (map call_text (forward_calls fan_in_d_e)))
             +:+ nl +:+ nl +:+ tab +:+ tab +:+ " return " +:+ t))
  /\ List.filter (fun c => String.eqb (call_node c) "A") (forward_calls fan_in_d_e)
  = [Call "A" None]
  /\ call_args (Call "A" None) = []
  /\ call_text (Call "A" None)
     = nl +:+ nl +:+ tab +:+ tab +:+ " val_" +:+ "A" +:+ "=val_" +:+ "A"
          +:+ "+self." +:+ "A" +:+ "()"
  /\ forall (V : Type) (mul : V -> V -> V) (tensor : pyval -> V)
            (vars : gmap string V),
       arg_values V mul tensor vars (Call "A" None) = Some [].
Proof.
  apply (source_nodes_called_without_argument
           (g_nodes fan_in_graph) ["A"; "B"; "C"] fan_in_d_e "A").
  - discriminate.
  - simpl. tauto.
  - repeat (apply List.NoDup_cons; [simpl; intuition discriminate |]).
    apply List.NoDup_nil.
  - simpl. auto.
Defined.

Lemma val_name_inj (k node : string) :
  "val_" +:+ k = "val_" +:+ node -> k = node.
Proof. intros H. exact (String.app_inj "val_" _ _ H). Qed.

Lemma fold_left_results {V} (add : V -> V -> V) (r : V) rs acc :
  fold_left add (r :: rs) acc = fold_left add rs (add acc r).
Proof. reflexivity. Qed.

(** Running the calls one entry with predecessors gets: none of them stops
    as long as the variables they read are bound, the running value of the
    node ends as its start value plus the results of the invocations, and
    each invocation has consumed the value of its predecessor, scaled by the
    weight when there is one. *)
Lemma run_calls_entry {V U} (add mul : V -> V -> V) (tensor : pyval -> V)
    (invoke : string -> list V -> U -> V * U) (node : string) :
  forall (deps : list (string * pyval)) (vars : gmap string V) (u : U) (acc : V),
    vars !! ("val_" +:+ node) = Some acc ->
    (forall kw, In kw deps -> is_Some (vars !! ("val_" +:+ fst kw))) ->
    exists trace vars' u',
      run_calls V add mul tensor U invoke
        (map (fun kw => Call node (Some kw)) deps) (vars, u)
      = Some (trace, (vars', u'))
      /\ List.length trace = List.length deps
      /\ vars' !! ("val_" +:+ node)
         = Some (fold_left add (map inv_result trace) acc)
      /\ (forall k, k <> node ->
            vars' !! ("val_" +:+ k) = vars !! ("val_" +:+ k))
      /\ Forall2 (fun i kw =>
                    inv_node i = node
                    /\ (fst kw <> node ->
                        exists v, vars !! ("val_" +:+ fst kw) = Some v
                                  /\ inv_args i = [scaled V mul tensor v (snd kw)]))
                 trace deps.
Proof.
  induction deps as [| [k w] deps IH]; intros vars u acc Hacc Hbound.
  - exists [], vars, u. cbn. repeat split; auto.
  - destruct (Hbound (k, w) (or_introl eq_refl)) as [v Hv]. cbn [fst] in Hv.
    cbn [map run_calls]. unfold run_call.
    cbn [call_node fst snd arg_values]. rewrite Hacc, Hv.
    destruct (invoke node [scaled V mul tensor v w] u) as [r u1] eqn:Hinv.
    set (vars1 := <["val_" +:+ node := add acc r]> vars).
    assert (Hacc1 : vars1 !! ("val_" +:+ node) = Some (add acc r))
      by apply lookup_insert_eq.
    assert (Hframe1 : forall k', k' <> node ->
               vars1 !! ("val_" +:+ k') = vars !! ("val_" +:+ k')).
    { intros k' Hne. apply lookup_insert_ne.
      intros Heq. apply Hne. symmetry. now apply val_name_inj. }
    destruct (IH vars1 u1 (add acc r) Hacc1) as (trace & vars' & u' & Hrun & Hlen & Hsum & Hframe & Hall).
    { intros kw Hkw. destruct (decide (fst kw = node)) as [-> | Hne].
      - rewrite Hacc1. eauto.
      - rewrite Hframe1 by exact Hne. apply Hbound. now right. }
    rewrite Hrun.
    eexists _, vars', u'. split; [reflexivity |].
    split; [cbn; now rewrite Hlen |].
    split; [cbn [map inv_result]; now rewrite fold_left_results |].
    split.
    { intros k' Hne. rewrite Hframe by exact Hne. now apply Hframe1. }
    constructor.
    + cbn. split; [reflexivity |]. intros _. eauto.
    + eapply Forall2_impl; [exact Hall |].
      intros i kw [Hnode Hargs]. split; [exact Hnode |].
      intros Hne. destruct (Hargs Hne) as (v' & Hv' & Hi).
      exists v'. split; [| exact Hi]. now rewrite <- Hframe1.
Qed.



(** ** The initial state of a unit *)

(** The argument one parameter contributes to [__init__], whenever the turn
    of the loop does not raise. *)
Lemma init_arg_text (p : Param) g t g' :
  truthy_ostr (p_function p) = false ->
  (p_is_stateful p = true -> truthy (p_value p) = false -> p_value p = VNone) ->
  init_arg p g = (Ok t, g') ->
  t = p_id p +:+ "=torch.tensor(" +:+ py_str (initial_state p) +:+ "),".
Proof.
  intros Hf Hnone. unfold init_arg, initial_state. rewrite Hf. cbn [negb].
  unfold bind.
  destruct (if String.eqb (p_id p) "input_level"
            then graph_input_append (p_value p) else ret tt) as [[[] | e] g1] eqn:E1.
  2:{ destruct (String.eqb (p_id p) "input_level"); discriminate E1. }
  cbn [param_set_add].
  destruct (p_is_stateful p); cbn [negb andb].
  - destruct (truthy (p_value p)).
    + unfold ret. intros [= <- _]. reflexivity.
    + cbn [get_param_set].
      destruct (eq_str (p_default_initial_value p) "str" && _);
        [discriminate |].
      unfold ret. intros [= <- _]. reflexivity.
  - unfold ret. intros [= <- _]. reflexivity.
Qed.

(** A loop that appends text, cut at one of its turns. *)
Lemma for_text_split {A} (f : A -> py string) (pre : list A) x post g t g' :
  for_text f (pre ++ x :: post) g = (Ok t, g') ->
  exists t1 tx t2 g1 g2,
    for_text f pre g = (Ok t1, g1)
    /\ f x g1 = (Ok tx, g2)
    /\ t = t1 +:+ tx +:+ t2.
Proof.
  revert g t g'. induction pre as [| y pre IH]; intros g t g' H.
  - cbn [app for_text] in H. unfold bind in H.
    destruct (f x g) as [[tx | e] g2] eqn:Ex; [| discriminate].
    destruct (for_text f post g2) as [[t2 | e] g3]; [| discriminate].
    injection H as <- _.
    exists "", tx, t2, g, g2.
    split; [reflexivity | split; [assumption | reflexivity]].
  - cbn [app for_text] in H. unfold bind in H.
    destruct (f y g) as [[ty | e] gy] eqn:Ey; [| discriminate].
    destruct (for_text f (pre ++ x :: post) gy) as [[tr | e] gr] eqn:Er;
      [| discriminate].
    injection H as <- _.
    destruct (IH gy tr gr Er) as (t1 & tx & t2 & g1 & g2 & H1 & Hx & ->).
    exists (ty +:+ t1), tx, t2, g1, g2.
    split; [| split; [assumption |]].
    + cbn [for_text]. unfold bind. rewrite Ey, H1. reflexivity.
    + now rewrite string_app_assoc.
Qed.




(** ** Stateful parameters with a time derivative *)

Lemma sym_loop_str (ids : list string) (s : string) :
  sym_loop ids (VStr s) = Ok (VStr (sym_str ids s)).
Proof.
  revert s. induction ids as [| i ids IH]; intros s; [reflexivity |].
  cbn [sym_loop sym_str fold_left]. apply IH.
Qed.

(** The forward lines never touch the store. *)
Lemma forward_stateful_store set_order p g r g' :
  forward_stateful set_order p g = (r, g') -> g' = g.
Proof.
  unfold forward_stateful, bind, sym, ret.
  destruct (p_is_stateful p && negb (truthy_ostr (p_function p)));
    [| now intros [= _ <-]].
  destruct (truthy (p_value p)).
  - destruct (sym_loop _ _); now intros [= _ <-].
  - destruct (truthy_ostr (p_time_derivative p)); [| now intros [= _ <-]].
    destruct (sym_loop _ _); now intros [= _ <-].
Qed.

Lemma forward_function_store set_order mdf_functions p exp g r g' :
  forward_function set_order mdf_functions p exp g = (r, g') -> g' = g.
Proof.
  unfold forward_function, bind, sym, ret, lift, read_exp, raise.
  destruct (p_function p) as [f |]; [| now intros [= _ <-]].
  destruct (truthy_ostr (Some f)); [| now intros [= _ <-]].
  destruct (mdf_functions !! f) as [es |].
  - destruct (func_args es (p_args p)) as [e | e]; [| now intros [= _ <-]].
    rewrite sym_loop_str. now intros [= _ <-].
  - destruct exp as [[| z | t b | e] |]; now intros [= _ <-].
Qed.

(** A stateful line assigns to the attribute of its own parameter. *)
Lemma forward_stateful_writes set_order p g ls g' x :
  forward_stateful set_order p g = (Ok ls, g') ->
  p_id p <> x ->
  forallb (fun l => negb (writes x l)) ls = true.
Proof.
  intros H Hne.
  assert (Hb : String.eqb (p_id p) x = false)
    by (destruct (String.eqb_spec (p_id p) x); congruence).
  revert H. unfold forward_stateful, bind, sym, ret.
  destruct (p_is_stateful p && negb (truthy_ostr (p_function p)));
    [| now intros [= <- _]].
  destruct (truthy (p_value p)).
  - destruct (sym_loop _ _); [| discriminate].
    intros [= <- _]. cbn. now rewrite Hb.
  - destruct (truthy_ostr (p_time_derivative p)); [| now intros [= <- _]].
    destruct (sym_loop _ _); [| discriminate].
    intros [= <- _]. cbn. now rewrite Hb.
Qed.

(** A function line assigns to a local name only. *)
Lemma forward_function_writes set_order mdf_functions p exp g ls exp' g' x :
  forward_function set_order mdf_functions p exp g = (Ok (ls, exp'), g') ->
  forallb (fun l => negb (writes x l)) ls = true.
Proof.
  unfold forward_function, bind, sym, ret, lift, read_exp, raise.
  destruct (p_function p) as [f |]; [| now intros [= <- _ _]].
  destruct (truthy_ostr (Some f)); [| now intros [= <- _ _]].
  destruct (mdf_functions !! f) as [es |].
  - destruct (func_args es (p_args p)) as [e | e]; [| discriminate].
    rewrite sym_loop_str. now intros [= <- _ _].
  - destruct exp as [[| z | t b | e] |]; try discriminate.
    now intros [= <- _ _].
Qed.

Lemma forward_params_writes set_order mdf_functions x parameters :
  forall exp g ls g',
    forward_params set_order mdf_functions parameters exp g = (Ok ls, g') ->
    ~ In x (map p_id parameters) ->
    forallb (fun l => negb (writes x l)) ls = true.
Proof.
  induction parameters as [| q rest IH]; intros exp g ls g' H Hx.
  - cbn in H. injection H as <- _. reflexivity.
  - cbn [forward_params] in H. unfold bind in H.
    destruct (forward_stateful set_order q g) as [[l1 | e] g1] eqn:E1; [| discriminate].
    destruct (forward_function set_order mdf_functions q exp g1)
      as [[[l2 exp'] | e] g2] eqn:E2; [| discriminate].
    cbn [snd fst] in H.
    destruct (forward_params set_order mdf_functions rest exp' g2)
      as [[l3 | e] g3] eqn:E3; [| discriminate].
    injection H as <- _.
    rewrite !forallb_app.
    rewrite (forward_stateful_writes _ _ _ _ _ x E1)
      by (intros Heq; apply Hx; left; exact Heq).
    rewrite (forward_function_writes _ _ _ _ _ _ _ _ x E2).
    rewrite (IH _ _ _ _ E3) by (intros Hin; apply Hx; right; exact Hin).
    reflexivity.
Qed.

(** The line of a parameter that is stateful, not bound to a function,
    without a value and with a time derivative. *)
Lemma forward_stateful_derivative set_order p e g :
  p_is_stateful p = true ->
  truthy_ostr (p_function p) = false ->
  truthy (p_value p) = false ->
  p_time_derivative p = Some e ->
  e <> "" ->
  forward_stateful set_order p g
  = (Ok [Accumulate (p_id p) (sym_str (set_order (param_set g)) e)], g).
Proof.
  intros Hs Hf Hv Hd He. unfold forward_stateful.
  rewrite Hs, Hf, Hv, Hd. cbn [negb andb].
  assert (Ht : truthy_ostr (Some e) = true).
  { unfold truthy_ostr; cbn. destruct (String.eqb_spec e ""); [congruence | reflexivity]. }
  rewrite Ht. unfold bind, sym. cbn [of_ostr]. rewrite sym_loop_str.
  reflexivity.
Qed.

(** Among the forward lines of a node whose parameter ids are pairwise
    different, exactly one assigns to the attribute of such a parameter: its
    accumulation. *)
Lemma forward_params_derivative set_order mdf_functions p e parameters :
  forall exp g ls g',
    forward_params set_order mdf_functions parameters exp g = (Ok ls, g') ->
    In p parameters ->
    List.NoDup (map p_id parameters) ->
    p_is_stateful p = true ->
    truthy_ostr (p_function p) = false ->
    truthy (p_value p) = false ->
    p_time_derivative p = Some e ->
    e <> "" ->
    exists l1 l2,
      ls = l1 ++ Accumulate (p_id p) (sym_str (set_order (param_set g)) e) :: l2
      /\ forallb (fun l => negb (writes (p_id p) l)) l1 = true
      /\ forallb (fun l => negb (writes (p_id p) l)) l2 = true.
Proof.
  induction parameters as [| q rest IH];
    intros exp g ls g' H Hin Hnd Hs Hf Hv Hd He; [destruct Hin |].
  cbn [map] in Hnd. apply List.NoDup_cons_iff in Hnd. destruct Hnd as [Hfresh Hnd].
  cbn [forward_params] in H. unfold bind in H.
  destruct (forward_stateful set_order q g) as [[la | err] g1] eqn:E1; [| discriminate].
  pose proof (forward_stateful_store _ _ _ _ _ E1) as ->.
  destruct (forward_function set_order mdf_functions q exp g)
    as [[[lb exp'] | err] g2] eqn:E2; [| discriminate].
  pose proof (forward_function_store _ _ _ _ _ _ _ E2) as ->.
  cbn [snd fst] in H.
  destruct (forward_params set_order mdf_functions rest exp' g)
    as [[lc | err] g3] eqn:E3; [| discriminate].
  injection H as <- _.
  destruct Hin as [-> | Hin].
  - rewrite (forward_stateful_derivative set_order p e g Hs Hf Hv Hd He) in E1.
    injection E1 as <-.
    exists [], (lb ++ lc). split; [reflexivity |]. split; [reflexivity |].
    rewrite forallb_app.
    rewrite (forward_function_writes _ _ _ _ _ _ _ _ (p_id p) E2).
    now rewrite (forward_params_writes _ _ _ _ _ _ _ _ E3 Hfresh).
  - assert (Hne : p_id q <> p_id p).
    { intros Heq. apply Hfresh. rewrite Heq. now apply in_map. }
    destruct (IH exp' g lc g3 E3 Hin Hnd Hs Hf Hv Hd He) as (l1 & l2 & -> & H1 & H2).
    exists (la ++ lb ++ l1), l2. split; [now rewrite <- !app_assoc |].
    split; [| assumption].
    rewrite !forallb_app.
    rewrite (forward_stateful_writes _ _ _ _ _ (p_id p) E1 Hne).
    rewrite (forward_function_writes _ _ _ _ _ _ _ _ (p_id p) E2).
    now rewrite H1.
Qed.

Lemma run_lines_cons eval l ls st :
  run_lines eval (l :: ls) st = run_lines eval ls (run_line eval l st).
Proof. reflexivity. Qed.

(** Running lines that do not assign to [x] leaves [x] as it was. *)
Lemma run_lines_other eval x ls :
  forall st,
    forallb (fun l => negb (writes x l)) ls = true ->
    snd (run_lines eval ls st) x = snd st x.
Proof.
  induction ls as [| l ls IH]; intros [names self] H; [reflexivity |].
  cbn [forallb] in H. apply andb_true_iff in H. destruct H as [Hl Hls].
  rewrite run_lines_cons, (IH _ Hls).
  apply negb_true_iff in Hl.
  destruct l; cbn [run_line snd writes] in *; unfold assign;
    try reflexivity; rewrite String.eqb_sym in Hl; now rewrite Hl.
Qed.

Lemma run_lines_app eval l1 l2 st :
  run_lines eval (l1 ++ l2) st = run_lines eval l2 (run_lines eval l1 st).
Proof. unfold run_lines. apply fold_left_app. Qed.

(** One invocation of a step whose only line on [x] is an accumulation adds
    to [x] what the derivative is worth at that point. *)
Lemma run_forward_accumulates eval x e l1 l2 inputs self :
  x <> "execution_count" ->
  forallb (fun l => negb (writes x l)) l1 = true ->
  forallb (fun l => negb (writes x l)) l2 = true ->
  exists names' self',
    self' x = self x
    /\ run_forward eval (l1 ++ Accumulate x e :: l2) inputs self x
       = (self x + eval names' self' e)%Z.
Proof.
  intros Hx H1 H2. unfold run_forward.
  change (Count :: l1 ++ Accumulate x e :: l2)
    with ((Count :: l1) ++ Accumulate x e :: l2).
  rewrite run_lines_app.
  assert (Hc : forallb (fun l => negb (writes x l)) (Count :: l1) = true).
  { cbn [forallb writes]. rewrite H1.
    destruct (String.eqb_spec "execution_count" x); [congruence | reflexivity]. }
  pose proof (run_lines_other eval x (Count :: l1) (inputs, self) Hc) as Hpre.
  destruct (run_lines eval (Count :: l1) (inputs, self)) as [names' self'].
  cbn [snd] in Hpre.
  exists names', self'. split; [assumption |].
  rewrite run_lines_cons, (run_lines_other eval x l2 _ H2).
  cbn [run_line snd]. unfold assign. rewrite String.eqb_refl.
  now rewrite Hpre.
Qed.




(** ** The predecessor map, from the edges *)

Lemma dict_get_set_eq {A} k (v : A) (d : list (string * A)) :
  dict_get k (dict_set k v d) = Some v.
Proof.
  induction d as [| [k' v'] d IH]; simpl.
  - now rewrite String.eqb_refl.
  - destruct (String.eqb_spec k' k) as [-> | Hne]; simpl.
    + now rewrite String.eqb_refl.
    + destruct (String.eqb_spec k' k); [congruence | exact IH].
Qed.

Lemma dict_get_set_ne {A} k k' (v : A) (d : list (string * A)) :
  k <> k' -> dict_get k' (dict_set k v d) = dict_get k' d.
Proof.
  intros Hne. induction d as [| [k0 v0] d IH]; simpl.
  - destruct (String.eqb_spec k k'); [congruence | reflexivity].
  - destruct (String.eqb_spec k0 k) as [-> | Hne0]; simpl.
    + destruct (String.eqb_spec k k'); [congruence | reflexivity].
    + destruct (String.eqb_spec k0 k'); [reflexivity | exact IH].
Qed.

Lemma dict_set_NoDup {A} k (v : A) (d : list (string * A)) :
  List.NoDup (map fst d) -> List.NoDup (map fst (dict_set k v d)).
Proof.
  induction d as [| [k' v'] d IH]; intros H; simpl.
  - constructor; [simpl; tauto | constructor].
  - cbn [map fst] in H. apply List.NoDup_cons_iff in H. destruct H as [Hfresh Hnd].
    destruct (String.eqb_spec k' k) as [-> | Hne]; simpl.
    + constructor; assumption.
    + constructor; [| now apply IH].
      rewrite dict_set_keys. intros [Heq | Hin]; [congruence | contradiction].
Qed.

Lemma dict_set_values {A} (P : A -> Prop) k (v : A) (d : list (string * A)) :
  P v -> Forall (fun entry => P (snd entry)) d ->
  Forall (fun entry => P (snd entry)) (dict_set k v d).
Proof.
  intros Hv. induction d as [| [k' v'] d IH]; intros H; simpl.
  - constructor; [exact Hv | constructor].
  - inversion H as [| ? ? Hh Ht]; subst.
    destruct (String.eqb_spec k' k); constructor; auto.
Qed.

Lemma dict_get_value {A} (P : A -> Prop) k (d : list (string * A)) v :
  Forall (fun entry => P (snd entry)) d -> dict_get k d = Some v -> P v.
Proof.
  induction d as [| [k' v'] d IH]; intros H Hget; simpl in Hget; [discriminate |].
  inversion H as [| ? ? Hh Ht]; subst.
  destruct (String.eqb k' k); [injection Hget as <-; exact Hh | now apply IH].
Qed.

(** The keys of the fresh map: unique, in declaration order, every inner
    dict empty. *)
Lemma d_e_init_shape (nodes : list Node) :
  List.NoDup (map fst (d_e_init nodes))
  /\ Forall (fun entry => snd entry = []) (d_e_init nodes).
Proof.
  unfold d_e_init.
  assert (G : forall acc : list (string * list (string * pyval)),
             List.NoDup (map fst acc) ->
             Forall (fun entry => snd entry = []) acc ->
             List.NoDup (map fst (foldl (fun d n => dict_set (n_id n) [] d) acc nodes))
             /\ Forall (fun entry => snd entry = [])
                  (foldl (fun d n => dict_set (n_id n) [] d) acc nodes)).
  { induction nodes as [| n nodes IH]; intros acc Hnd Hall; simpl; [auto |].
    apply IH; [now apply dict_set_NoDup |].
    now apply (dict_set_values (fun v => v = [])). }
  apply G; constructor.
Qed.

Lemma d_e_init_distinct (nodes : list Node) :
  List.NoDup (map n_id nodes) -> map fst (d_e_init nodes) = map n_id nodes.
Proof.
  unfold d_e_init.
  assert (G : forall acc : list (string * list (string * pyval)),
             List.NoDup (map fst acc ++ map n_id nodes) ->
             map fst (foldl (fun d n => dict_set (n_id n) [] d) acc nodes)
             = map fst acc ++ map n_id nodes).
  { induction nodes as [| n nodes IH]; intros acc Hnd; simpl.
    - now rewrite app_nil_r.
    - assert (Hfresh : ~ In (n_id n) (map fst acc)).
      { cbn [map] in Hnd. apply List.NoDup_remove_2 in Hnd.
        intros Hin. apply Hnd, in_or_app. now left. }
      assert (Hk : map fst (dict_set (n_id n) ([] : list (string * pyval)) acc)
                   = map fst acc ++ [n_id n]).
      { clear -Hfresh. induction acc as [| [k v] acc IHa]; simpl; [reflexivity |].
        destruct (String.eqb_spec k (n_id n)) as [-> | Hne].
        - exfalso. apply Hfresh. now left.
        - simpl. f_equal. apply IHa. intros Hin. apply Hfresh. now right. }
      rewrite IH; rewrite Hk; rewrite <- app_assoc; [reflexivity |].
      exact Hnd. }
  intros Hnd. apply (G []). exact Hnd.
Qed.

(** One edge keeps the keys, their order and the uniqueness of the inner
    keys. *)
Lemma d_e_edge_shape get_node graph e d_e d_e' :
  d_e_edge get_node graph e d_e = Ok d_e' ->
  Forall (fun entry => List.NoDup (map fst (snd entry))) d_e ->
  map fst d_e' = map fst d_e
  /\ Forall (fun entry => List.NoDup (map fst (snd entry))) d_e'.
Proof.
  unfold d_e_edge. intros H Hall.
  destruct (get_node graph (e_receiver e)) as [r |]; [| discriminate].
  destruct (dict_get (n_id r) d_e) as [inner |] eqn:Hget; [| discriminate].
  destruct (get_node graph (e_sender e)) as [s |]; [| discriminate].
  injection H as <-. split.
  - apply dict_set_keys_present. apply dict_get_is_Some. eauto.
  - apply (dict_set_values (fun v => List.NoDup (map fst v))); [| assumption].
    apply dict_set_NoDup.
    exact (dict_get_value (fun v => List.NoDup (map fst v)) _ _ _ Hall Hget).
Qed.

Lemma d_e_edges_shape get_node graph edges :
  forall d_e d_e',
    d_e_edges get_node graph edges d_e = Ok d_e' ->
    Forall (fun entry => List.NoDup (map fst (snd entry))) d_e ->
    map fst d_e' = map fst d_e
    /\ Forall (fun entry => List.NoDup (map fst (snd entry))) d_e'.
Proof.
  induction edges as [| e edges IH]; intros d_e d_e' H Hall; simpl in H.
  - injection H as <-. auto.
  - destruct (d_e_edge get_node graph e d_e) as [d1 | err] eqn:E; [| discriminate].
    destruct (d_e_edge_shape _ _ _ _ _ E Hall) as [Hk Hall1].
    destruct (IH _ _ H Hall1) as [Hk' Hall']. split; [congruence | assumption].
Qed.

Lemma d_e_graphs_shape get_node graphs :
  forall d_e d_e',
    d_e_graphs get_node graphs d_e = Ok d_e' ->
    Forall (fun entry => List.NoDup (map fst (snd entry))) d_e ->
    map fst d_e' = map fst d_e
    /\ Forall (fun entry => List.NoDup (map fst (snd entry))) d_e'.
Proof.
  induction graphs as [| graph graphs IH]; intros d_e d_e' H Hall; simpl in H.
  - injection H as <-. auto.
  - destruct (d_e_edges get_node graph (g_edges graph) d_e) as [d1 | err] eqn:E;
      [| discriminate].
    destruct (d_e_edges_shape _ _ _ _ _ E Hall) as [Hk Hall1].
    destruct (IH _ _ H Hall1) as [Hk' Hall']. split; [congruence | assumption].
Qed.

(** X1.  Whenever the loop over the edges goes through, what it leaves is a
    dict of dicts on the nodes of the graph: its keys are the keys of the
    fresh map, which are pairwise different and are exactly the node ids (in
    declaration order when these are pairwise different), and the senders
    listed for a receiver are pairwise different. *)
Theorem predecessor_map_is_dict :
  forall get_node (graphs : list Graph) (nodes : list Node) d_e,
    d_e_graphs get_node graphs (d_e_init nodes) = Ok d_e ->
    List.NoDup (map fst d_e)
    /\ (forall k, In k (map fst d_e) <-> In k (map n_id nodes))
    /\ (List.NoDup (map n_id nodes) -> map fst d_e = map n_id nodes)
    /\ Forall (fun entry => List.NoDup (map fst (snd entry))) d_e.
Proof.
  intros gn graphs nodes d_e H.
  destruct (d_e_init_shape nodes) as [Hnd Hempty].
  assert (Hall : Forall (fun entry : string * list (string * pyval) =>
                           List.NoDup (map fst (snd entry))) (d_e_init nodes)).
  { eapply Forall_impl; [exact Hempty |].
    intros entry Hentry. cbn beta in Hentry. rewrite Hentry. constructor. }
  destruct (d_e_graphs_shape _ _ _ _ H Hall) as [Hk Hall'].
  rewrite Hk. repeat split; try assumption.
  - apply d_e_init_keys.
  - apply d_e_init_keys.
  - apply d_e_init_distinct.
Qed.

Lemma predecessor_map_is_dict_witness :
  List.NoDup (map fst fan_in_d_e)
  /\ (forall k, In k (map fst fan_in_d_e)
                <-> In k (map n_id (g_nodes fan_in_graph)))
  /\ (List.NoDup (map n_id (g_nodes fan_in_graph)) ->
      map fst fan_in_d_e = map n_id (g_nodes fan_in_graph))
  /\ Forall (fun entry => List.NoDup (map fst (snd entry))) fan_in_d_e.
Proof.
  apply (predecessor_map_is_dict find_node [weighted_fan_in]
           (g_nodes fan_in_graph) fan_in_d_e).
  vm_compute. reflexivity.
Defined.

Lemma find_node_by_id : finds_by_id find_node.
Proof.
  intros graph id n H. unfold find_node in H.
  apply List.find_some in H. destruct H as [_ H].
  now apply String.eqb_eq in H.
Qed.

Lemma d_e_lookup_init nodes r s : d_e_lookup r s (d_e_init nodes) = None.
Proof.
  unfold d_e_lookup.
  destruct (dict_get r (d_e_init nodes)) as [inner |] eqn:Hget; [| reflexivity].
  destruct (d_e_init_shape nodes) as [_ Hempty].
  rewrite (dict_get_value (fun v => v = []) _ _ _ Hempty Hget). reflexivity.
Qed.

(** What one edge changes in the map. *)
Lemma d_e_lookup_edge get_node graph e d_e d_e' r s :
  finds_by_id get_node ->
  d_e_edge get_node graph e d_e = Ok d_e' ->
  d_e_lookup r s d_e'
  = if joins s r e then Some (edge_weight e) else d_e_lookup r s d_e.
Proof.
  intros Hid. unfold d_e_edge.
  destruct (get_node graph (e_receiver e)) as [rn |] eqn:Hr; [| discriminate].
  destruct (dict_get (n_id rn) d_e) as [inner |] eqn:Hget; [| discriminate].
  destruct (get_node graph (e_sender e)) as [sn |] eqn:Hs; [| discriminate].
  intros [= <-].
  rewrite (Hid _ _ _ Hr) in *. rewrite (Hid _ _ _ Hs).
  unfold d_e_lookup, joins.
  destruct (String.eqb_spec (e_receiver e) r) as [<- | Hner].
  - rewrite dict_get_set_eq, Hget, andb_true_r.
    destruct (String.eqb_spec (e_sender e) s) as [<- | Hnes].
    + apply dict_get_set_eq.
    + now apply dict_get_set_ne.
  - rewrite andb_false_r. now rewrite dict_get_set_ne.
Qed.

Lemma d_e_lookup_edges get_node graph edges r s :
  finds_by_id get_node ->
  forall d_e d_e',
    d_e_edges get_node graph edges d_e = Ok d_e' ->
    d_e_lookup r s d_e'
    = match last_weight s r edges with
      | Some w => Some w
      | None => d_e_lookup r s d_e
      end.
Proof.
  intros Hid. induction edges as [| e edges IH]; intros d_e d_e' H; simpl in H.
  - injection H as <-. reflexivity.
  - destruct (d_e_edge get_node graph e d_e) as [d1 | err] eqn:E; [| discriminate].
    rewrite (IH _ _ H). cbn [last_weight].
    destruct (last_weight s r edges); [reflexivity |].
    rewrite (d_e_lookup_edge _ _ _ _ _ r s Hid E).
    now destruct (joins s r e).
Qed.

Lemma last_weight_app s r l1 l2 :
  last_weight s r (l1 ++ l2)
  = match last_weight s r l2 with
    | Some w => Some w
    | None => last_weight s r l1
    end.
Proof.
  induction l1 as [| e l1 IH]; simpl.
  - now destruct (last_weight s r l2).
  - rewrite IH. now destruct (last_weight s r l2).
Qed.

Lemma d_e_lookup_graphs get_node graphs r s :
  finds_by_id get_node ->
  forall d_e d_e',
    d_e_graphs get_node graphs d_e = Ok d_e' ->
    d_e_lookup r s d_e'
    = match last_weight s r (flat_map g_edges graphs) with
      | Some w => Some w
      | None => d_e_lookup r s d_e
      end.
Proof.
  intros Hid. induction graphs as [| graph graphs IH]; intros d_e d_e' H;
    simpl in H.
  - injection H as <-. reflexivity.
  - destruct (d_e_edges get_node graph (g_edges graph) d_e) as [d1 | err] eqn:E;
      [| discriminate].
    rewrite (IH _ _ H). cbn [flat_map]. rewrite last_weight_app.
    destruct (last_weight s r (flat_map g_edges graphs)); [reflexivity |].
    apply (d_e_lookup_edges _ _ _ r s Hid _ _ E).
Qed.

(** X2.  When [get_node] finds nodes by their id and the loop over the
    edges goes through, [d_e[r][s]] is there exactly when some edge of some
    graph of the model goes from [s] to [r], and it holds what the last such
    edge stored: its weight, or [None] when it declares none.  The edges of
    every graph of the model are collected, not only those of the graph
    whose nodes key the map. *)
Theorem predecessor_map_holds_last_weight :
  forall get_node (graphs : list Graph) (nodes : list Node) d_e (r s : string),
    finds_by_id get_node ->
    d_e_graphs get_node graphs (d_e_init nodes) = Ok d_e ->
    d_e_lookup r s d_e = last_weight s r (flat_map g_edges graphs).
Proof.
  intros gn graphs nodes d_e r s Hid H.
  rewrite (d_e_lookup_graphs gn graphs r s Hid _ _ H), d_e_lookup_init.
  now destruct (last_weight s r (flat_map g_edges graphs)).
Qed.

Lemma predecessor_map_holds_last_weight_witness :
  d_e_lookup "C" "B" fan_in_d_e
  = last_weight "B" "C" (flat_map g_edges [weighted_fan_in]).
Proof.
  apply (predecessor_map_holds_last_weight find_node [weighted_fan_in]
           (g_nodes fan_in_graph) fan_in_d_e "C" "B").
  - exact find_node_by_id.
  - vm_compute. reflexivity.
Defined.

(** The only way the loop over the edges stops, when every end of every
    edge is found, is a receiver that is not a key of the map. *)
Lemma d_e_edges_foreign get_node graph edges :
  finds_by_id get_node ->
  (forall e, In e edges ->
     is_Some (get_node graph (e_sender e))
     /\ is_Some (get_node graph (e_receiver e))) ->
  forall d_e,
    (exists d_e', d_e_edges get_node graph edges d_e = Ok d_e'
                  /\ map fst d_e' = map fst d_e
                  /\ forall e, In e edges -> In (e_receiver e) (map fst d_e))
    \/ d_e_edges get_node graph edges d_e = Raise KeyError.
Proof.
  intros Hid. induction edges as [| e edges IH]; intros Hfound d_e.
  - left. exists d_e. repeat split. intros e [].
  - destruct (Hfound e (or_introl eq_refl)) as [[sn Hs] [rn Hr]].
    cbn [d_e_edges]. unfold d_e_edge. rewrite Hs, Hr, (Hid _ _ _ Hr).
    destruct (dict_get (e_receiver e) d_e) as [inner |] eqn:Hget; [| now right].
    assert (Hin : In (e_receiver e) (map fst d_e))
      by (apply dict_get_is_Some; eauto).
    set (d1 := dict_set (e_receiver e) _ d_e).
    assert (Hk : map fst d1 = map fst d_e) by now apply dict_set_keys_present.
    destruct (IH (fun e' He' => Hfound e' (or_intror He')) d1)
      as [(d' & Hd' & Hk' & Hrec) | Herr]; [left | now right].
    exists d'. split; [assumption |]. split; [congruence |].
    intros e' [<- | He']; [assumption |]. rewrite <- Hk. now apply Hrec.
Qed.

Lemma d_e_graphs_foreign get_node graphs :
  finds_by_id get_node ->
  (forall graph, In graph graphs -> all_found get_node graph) ->
  forall d_e,
    (exists d_e', d_e_graphs get_node graphs d_e = Ok d_e'
                  /\ forall graph e, In graph graphs -> In e (g_edges graph) ->
                       In (e_receiver e) (map fst d_e))
    \/ d_e_graphs get_node graphs d_e = Raise KeyError.
Proof.
  intros Hid. induction graphs as [| graph graphs IH]; intros Hfound d_e.
  - left. exists d_e. split; [reflexivity |]. intros graph e [].
  - cbn [d_e_graphs].
    destruct (d_e_edges_foreign get_node graph (g_edges graph) Hid
                (Hfound graph (or_introl eq_refl)) d_e)
      as [(d1 & Hd1 & Hk & Hrec) | Herr]; [| rewrite Herr; now right].
    rewrite Hd1.
    destruct (IH (fun g' Hg' => Hfound g' (or_intror Hg')) d1)
      as [(d' & Hd' & Hrec') | Herr]; [left | now right].
    exists d'. split; [assumption |].
    intros g' e [<- | Hg'] He; [now apply Hrec |].
    rewrite <- Hk. now apply (Hrec' g' e).
Qed.

(** X3.  A model in which some edge of some graph has a receiver that is
    not a node of the first graph is not compiled at all: the loop over the
    edges of all the graphs stops with [KeyError] while the first graph is
    being compiled, before anything is written and with the store as it
    was.  So a model of several graphs on different nodes compiles only when
    no graph has an edge. *)
Theorem foreign_receiver_raises_KeyError :
  forall set_order repr_str mdf_functions ordered_edges get_node
         (mdf_model : Model) (first : Graph) (others : list Graph)
         (graph : Graph) (e : Edge) g,
    finds_by_id get_node ->
    (forall graph', In graph' (m_graphs mdf_model) -> all_found get_node graph') ->
    m_graphs mdf_model = first :: others ->
    In graph (m_graphs mdf_model) ->
    In e (g_edges graph) ->
    ~ In (e_receiver e) (map n_id (g_nodes first)) ->
    _generate_scripts_from_model set_order repr_str mdf_functions
      ordered_edges get_node mdf_model g
    = (Raise KeyError, g).
Proof.
  intros so repr reg oe gn m first others graph e g Hid Hfound Hm Hg He Hforeign.
  unfold _generate_scripts_from_model. rewrite Hm at 1.
  cbn [generate_scripts_loop]. unfold generate_script_for.
  destruct (d_e_graphs_foreign gn (m_graphs m) Hid Hfound (d_e_init (g_nodes first)))
    as [(d' & _ & Hrec) | Herr].
  - exfalso. apply Hforeign. apply d_e_init_keys. now apply (Hrec graph e).
  - rewrite Herr. reflexivity.
Qed.

Lemma foreign_receiver_raises_KeyError_witness :
  export two_graph_model at_import = (Raise KeyError, at_import).
Proof.
  apply (foreign_receiver_raises_KeyError insertion_order single_quoted
           standard_functions declared_edges find_node two_graph_model
           {| g_id := "first"; g_nodes := [bare_node "A"]; g_edges := [] |}
           [{| g_id := "second"; g_nodes := [bare_node "P"; bare_node "Q"];
               g_edges := [edge "P" "Q"] |}]
           {| g_id := "second"; g_nodes := [bare_node "P"; bare_node "Q"];
              g_edges := [edge "P" "Q"] |}
           (edge "P" "Q") at_import).
  - exact find_node_by_id.
  - intros graph' [<- | [<- | []]] e' He'; simpl in He'.
    + destruct He'.
    + destruct He' as [<- | []]. split; vm_compute; eauto.
  - reflexivity.
  - simpl. auto.
  - simpl. auto.
  - simpl. intros [H | []]. discriminate H.
Defined.

Lemma last_default {A} (l : list A) (d1 d2 : A) :
  l <> [] -> List.last l d1 = List.last l d2.
Proof.
  induction l as [| x l IH]; [congruence |].
  intros _. destruct l as [| y l]; [reflexivity |].
  cbn [List.last] in *. apply IH. discriminate.
Qed.

Lemma generate_scripts_loop_key
    set_order repr_str mdf_functions ordered_edges get_node
    (mdf_model : Model) (default : Graph) (graphs : list Graph) :
  (forall graph, In graph graphs -> In graph (m_graphs mdf_model)) ->
  forall scripts g out g',
    generate_scripts_loop set_order repr_str mdf_functions ordered_edges
      get_node mdf_model graphs scripts g = (Ok out, g') ->
    (scripts = []
     \/ exists script,
          scripts = [(g_id (List.last (m_graphs mdf_model) default), script)]) ->
    (graphs = [] /\ out = scripts)
    \/ exists script,
         out = [(g_id (List.last (m_graphs mdf_model) default), script)].
Proof.
  induction graphs as [| graph graphs IH]; intros Hsub scripts g out g' H Hs.
  - cbn in H. injection H as <- _. now left.
  - right. cbn [generate_scripts_loop] in H. unfold bind at 1 in H.
    destruct (generate_script_for set_order repr_str mdf_functions
                ordered_edges get_node mdf_model graph scripts g)
      as [[scripts1 | err] g1] eqn:E; [| discriminate].
    assert (Hne : m_graphs mdf_model <> []).
    { intros Heq. specialize (Hsub graph (or_introl eq_refl)).
      rewrite Heq in Hsub. destruct Hsub. }
    assert (Hs1 : exists script,
               scripts1
               = [(g_id (List.last (m_graphs mdf_model) default), script)]).
    { unfold generate_script_for, bind, lift, ret in E.
      destruct (d_e_graphs get_node (m_graphs mdf_model) (d_e_init (g_nodes graph)))
        as [d_e | err]; [| discriminate].
      destruct (build_script set_order repr_str mdf_functions (g_nodes graph) _ _ d_e g)
        as [[script | err] g2]; [| discriminate].
      injection E as <- _.
      rewrite (last_default _ graph default Hne).
      exists script.
      destruct Hs as [-> | [old ->]]; cbn [dict_set]; [reflexivity |].
      now rewrite String.eqb_refl. }
    destruct (IH (fun g0 Hg0 => Hsub g0 (or_intror Hg0)) scripts1 g1 out g' H
                (or_intror Hs1)) as [[_ ->] | Hout]; assumption.
Qed.

(** X4.  Whatever the number of graphs, a model that compiles yields at
    most one script: none for a model without graphs, and otherwise a single
    entry, stored under the id of the last graph of the model (the inner
    loop over the graphs has rebound [graph] by the time the script is
    stored). *)
Theorem one_script_under_last_graph_id :
  forall set_order repr_str mdf_functions ordered_edges get_node
         (mdf_model : Model) (default : Graph) g scripts g',
    _generate_scripts_from_model set_order repr_str mdf_functions
      ordered_edges get_node mdf_model g = (Ok scripts, g') ->
    (m_graphs mdf_model = [] /\ scripts = [])
    \/ exists script,
         scripts = [(g_id (List.last (m_graphs mdf_model) default), script)].
Proof.
  intros so repr reg oe gn m default g scripts g' H.
  unfold _generate_scripts_from_model in H.
  apply (generate_scripts_loop_key so repr reg oe gn m default (m_graphs m)
           (fun _ Hg => Hg) [] g scripts g' H).
  now left.
Qed.

Lemma one_script_under_last_graph_id_witness :
  (m_graphs twin_graph_model = []
   /\ fst (export twin_graph_model at_import) = Ok [])
  \/ exists script,
       fst (export twin_graph_model at_import)
       = Ok [(g_id (List.last (m_graphs twin_graph_model) fan_in_graph), script)].
Proof.
  destruct (one_script_under_last_graph_id insertion_order single_quoted
              standard_functions declared_edges find_node twin_graph_model
              fan_in_graph at_import
              (match fst (export twin_graph_model at_import) with
               | Ok scripts => scripts
               | Raise _ => []
               end)
              at_import) as [[Hg Hs] | [script Hs]].
  - vm_compute. reflexivity.
  - discriminate Hg.
  - right. exists script. rewrite <- Hs. vm_compute. reflexivity.
Defined.

(** ** The main [forward]: when it is written, what it returns *)

Lemma forward_names_absent d_e k :
  ~ In k (map fst d_e) -> forward_names d_e !! k = None.
Proof.
  unfold forward_names.
  assert (G : forall acc : gmap string string,
             ~ In k (map fst d_e) ->
             foldl (fun d (entry : string * list (string * pyval)) =>
                      <[fst entry := "val_" +:+ fst entry]> d) acc d_e !! k
             = acc !! k).
  { induction d_e as [| [k' deps] d_e IH]; intros acc H; simpl; [reflexivity |].
    rewrite IH by (intros Hin; apply H; now right).
    apply lookup_insert_ne. intros Heq. apply H. now left. }
  intros H. rewrite G by exact H. apply lookup_empty.
Qed.

Lemma keys_or_missing (keys order : list string) :
  (forall k, In k order -> In k keys)
  \/ exists k, In k order /\ ~ In k keys.
Proof.
  induction order as [| n order IH].
  - left. intros k [].
  - destruct (in_dec string_dec n keys) as [Hn | Hn].
    + destruct IH as [Hall | (k & Hk & Hmiss)].
      * left. intros k [<- | Hk]; auto.
      * right. exists k. split; [now right | assumption].
    + right. exists n. split; [now left | assumption].
Qed.

Lemma concat_cons (x : string) (l : list string) :
  concat (x :: l) = x +:+ concat l.
Proof. reflexivity. Qed.

Lemma return_text_all d_e order :
  (forall k, In k order -> In k (map fst d_e)) ->
  return_text (forward_names d_e) order
  = Ok (concat (map returned_name order)).
Proof.
  induction order as [| n order IH]; intros H; [reflexivity |].
  cbn [return_text].
  rewrite forward_names_lookup by (apply H; now left).
  rewrite IH by (intros k Hk; apply H; now right).
  cbn [map]. rewrite concat_cons. unfold returned_name at 2.
  now rewrite !string_app_assoc.
Qed.

Lemma return_text_missing d order k :
  In k order -> d !! k = None -> return_text d order = Raise KeyError.
Proof.
  induction order as [| n order IH]; intros Hin Hk; [destruct Hin |].
  cbn [return_text].
  destruct (d !! n) as [name |] eqn:Hn; [| reflexivity].
  destruct Hin as [-> | Hin]; [congruence |].
  now rewrite (IH Hin Hk).
Qed.

(** X5.  The main [forward] is written exactly when every id of the
    execution order is a key of the predecessor map; otherwise
    [generate_main_forward] stops with [KeyError], its only error. *)
Theorem main_forward_needs_every_key :
  forall (nodes : list Node) (execution_order : list string)
         (d_e : list (string * list (string * pyval))),
    (is_ok (generate_main_forward nodes execution_order d_e) = true
     <-> forall k, In k execution_order -> In k (map fst d_e))
    /\ (is_ok (generate_main_forward nodes execution_order d_e) = false
        -> generate_main_forward nodes execution_order d_e = Raise KeyError).
Proof.
  intros nodes order d_e.
  destruct (keys_or_missing (map fst d_e) order) as [Hall | (k & Hk & Hmiss)].
  - destruct (generate_main_forward_ok nodes order d_e Hall) as [t Ht].
    rewrite Ht. cbn [is_ok]. split; [tauto | discriminate].
  - assert (Hraise : generate_main_forward nodes order d_e = Raise KeyError).
    { unfold generate_main_forward.
      destruct order as [| n rest]; [destruct Hk |].
      cbn [is_empty negb].
      rewrite (return_text_missing _ _ k Hk (forward_names_absent d_e k Hmiss)).
      reflexivity. }
    rewrite Hraise. cbn [is_ok]. split; [| reflexivity].
    split; [discriminate |]. intros Hall. exfalso. apply Hmiss. now apply Hall.
Qed.

(** X6.  When the main [forward] is written, its last line returns the
    running values in the execution order, one name per entry of the order,
    an id that occurs twice being returned twice. *)
Theorem main_forward_returns_in_order :
  forall (nodes : list Node) (execution_order : list string)
         (d_e : list (string * list (string * pyval))) (text : string),
    generate_main_forward nodes execution_order d_e = Ok text ->
    exists body,
      text = body +:+ nl +:+ nl +:+ tab +:+ tab +:+ " return "
                  +:+ concat (map returned_name execution_order).
Proof.
  intros nodes order d_e text H.
  destruct (keys_or_missing (map fst d_e) order) as [Hall | (k & Hk & Hmiss)].
  - unfold generate_main_forward in H.
    destruct order as [| n rest].
    + cbn [is_empty negb return_text] in H. injection H as <-.
      exists (nl +:+ tab +:+ "def forward(self, input):").
      now rewrite !string_app_assoc.
    + cbn [is_empty negb] in H.
      rewrite (return_text_all d_e (n :: rest) Hall) in H.
      injection H as <-.
      exists (nl +:+ tab +:+ "def forward(self, input):"
                 +:+ concat (map zeros_text (n :: rest))
                 +:+ concat (map call_text (forward_calls d_e))).
      cbn [map]. rewrite !concat_cons, !string_app_assoc. reflexivity.
  - exfalso. unfold generate_main_forward in H.
    destruct order as [| n rest]; [destruct Hk |].
    cbn [is_empty negb] in H.
    rewrite (return_text_missing _ _ k Hk (forward_names_absent d_e k Hmiss)) in H.
    discriminate H.
Qed.

Lemma main_forward_returns_in_order_witness :
  exists body,
    nl +:+ tab +:+ "def forward(self, input):"
       +:+ nl +:+ tab +:+ tab +:+ " val_A=torch.zeros_like(input)"
       +:+ nl +:+ tab +:+ tab +:+ " val_C=torch.zeros_like(input)"
       +:+ nl +:+ tab +:+ tab +:+ " val_C=torch.zeros_like(input)"
       +:+ nl +:+ nl +:+ tab +:+ tab +:+ " val_A=val_A+self.A()"
       +:+ nl +:+ nl +:+ tab +:+ tab +:+ " val_B=val_B+self.B()"
       +:+ nl +:+ tab +:+ tab +:+ " val_C=val_C+self.C(val_A)"
       +:+ nl +:+ tab +:+ tab +:+ " val_C=val_C+self.C(val_B*torch.tensor(2))"
       +:+ nl +:+ nl +:+ tab +:+ tab +:+ " return val_A,val_C,val_C,"
    = body +:+ nl +:+ nl +:+ tab +:+ tab +:+ " return "
           +:+ concat (map returned_name ["A"; "C"; "C"]).
Proof.
  apply (main_forward_returns_in_order (g_nodes fan_in_graph) ["A"; "C"; "C"]
           fan_in_d_e).
  vm_compute. reflexivity.
Defined.

Lemma node_calls_length entry :
  List.length (node_calls entry) = calls_of entry.
Proof.
  destruct entry as [node deps]. unfold node_calls, calls_of.
  destruct deps as [| kv deps]; [reflexivity |].
  cbn [is_empty snd]. rewrite length_map. cbn [List.length]. lia.
Qed.

(** X7.  In one pass of the main [forward] the unit of a node is called
    once when the node has no predecessor and [k] times when it has [k]:
    [max 1 k] times in all, which is by how much its execution counter
    moves. *)
Theorem unit_called_max_one_k_times :
  forall (d_e : list (string * list (string * pyval)))
         (node : string) (deps : list (string * pyval)),
    List.NoDup (map fst d_e) ->
    In (node, deps) d_e ->
    List.length
      (List.filter (fun c => String.eqb (call_node c) node) (forward_calls d_e))
    = Nat.max 1 (List.length deps).
Proof.
  intros d_e node deps Hnd Hin.
  rewrite (filter_forward_calls d_e node deps Hnd Hin).
  apply (node_calls_length (node, deps)).
Qed.

Lemma unit_called_max_one_k_times_witness :
  List.length
    (List.filter (fun c => String.eqb (call_node c) "C") (forward_calls fan_in_d_e))
  = Nat.max 1 (List.length [("A", VNone); ("B", VInt 2)]).
Proof.
  apply (unit_called_max_one_k_times fan_in_d_e "C").
  - repeat (apply List.NoDup_cons; [simpl; intuition discriminate |]).
    apply List.NoDup_nil.
  - simpl. auto.
Defined.

(** ** The class of a node: what it leaves in the store, when it fails *)

Lemma init_arg_store (p : Param) g :
  not_self (snd (init_arg p g)) = not_self g
  /\ param_set (snd (init_arg p g))
     = (if truthy_ostr (p_function p) then param_set g
        else set_add (p_id p) (param_set g))
  /\ graph_input (snd (init_arg p g))
     = (if String.eqb (p_id p) "input_level"
        then graph_input g ++ [p_value p] else graph_input g).
Proof.
  unfold init_arg, bind, ret, raise, get_param_set, param_set_add, graph_input_append.
  destruct (String.eqb (p_id p) "input_level");
    destruct (truthy_ostr (p_function p));
    destruct (p_is_stateful p); cbn [negb andb];
    try destruct (truthy (p_value p));
    try match goal with
        | |- context [if ?b && ?c then _ else _] => destruct (b && c)
        end;
    cbn; auto.
Qed.

Lemma init_loop_store (ps : list Param) :
  forall g t g',
    for_text init_arg ps g = (Ok t, g') ->
    not_self g' = not_self g
    /\ param_set g' = seen_after ps (param_set g)
    /\ graph_input g' = graph_input g ++ inputs_of ps.
Proof.
  induction ps as [| p ps IH]; intros g t g' H.
  - cbn in H. injection H as _ <-. cbn. now rewrite app_nil_r.
  - cbn [for_text] in H. unfold bind in H.
    destruct (init_arg p g) as [[tp | e] g1] eqn:Ep; [| discriminate].
    destruct (for_text init_arg ps g1) as [[ts | e] g2] eqn:Es; [| discriminate].
    injection H as _ <-.
    destruct (init_arg_store p g) as (Hn & Hp & Hi). rewrite Ep in Hn, Hp, Hi.
    cbn [snd] in Hn, Hp, Hi.
    destruct (IH _ _ _ Es) as (Hn' & Hp' & Hi').
    split; [congruence |]. split.
    + rewrite Hp', Hp. unfold seen_after. cbn [foldl].
      now destruct (truthy_ostr (p_function p)).
    + rewrite Hi', Hi. unfold inputs_of. cbn [List.filter].
      destruct (String.eqb (p_id p) "input_level"); cbn [map];
        [now rewrite <- app_assoc | reflexivity].
Qed.

Lemma forward_params_store set_order mdf_functions (ps : list Param) :
  forall exp g r g',
    forward_params set_order mdf_functions ps exp g = (r, g') -> g' = g.
Proof.
  induction ps as [| p ps IH]; intros exp g r g' H.
  - cbn in H. now injection H as _ <-.
  - cbn [forward_params] in H. unfold bind in H.
    destruct (forward_stateful set_order p g) as [[l1 | e] g1] eqn:E1;
      pose proof (forward_stateful_store _ _ _ _ _ E1) as ->;
      [| now injection H as _ <-].
    destruct (forward_function set_order mdf_functions p exp g)
      as [[[l2 exp'] | e] g2] eqn:E2;
      pose proof (forward_function_store _ _ _ _ _ _ _ E2) as ->;
      [| now injection H as _ <-].
    cbn [snd] in H.
    destruct (forward_params set_order mdf_functions ps exp' g)
      as [[l3 | e] g3] eqn:E3;
      pose proof (IH _ _ _ _ E3) as ->; now injection H as _ <-.
Qed.

Lemma forward_return_store set_order ports g r g' :
  forward_return set_order ports g = (r, g') -> g' = g.
Proof.
  unfold forward_return, bind, get_not_self, sym, ret, raise.
  destruct ports as [| o ports]; [now intros [= _ <-] |].
  destruct (match op_value o with
            | Some s => bool_decide (s ∈ not_self g)
            | None => false
            end); [now intros [= _ <-] |].
  destruct (sym_loop _ _); now intros [= _ <-].
Qed.

(** The store after the class of a node has been written. *)
Lemma declaration_store set_order mdf_functions name node_dict execution_order
    g text g' :
  get_module_declaration_text set_order mdf_functions
    name node_dict execution_order g = (Ok text, g') ->
  not_self g' = not_self g
  /\ param_set g'
     = (if is_empty (n_functions node_dict)
        then seen_after (n_parameters node_dict) (param_set g)
        else param_set g)
  /\ graph_input g'
     = graph_input g ++ (if is_empty (n_functions node_dict)
                         then inputs_of (n_parameters node_dict) else []).
Proof.
  unfold get_module_declaration_text.
  destruct (n_functions node_dict) as [| f fs].
  2:{ rewrite andb_false_r. intros [= _ <-]. cbn. now rewrite app_nil_r. }
  destruct (n_parameters node_dict) as [| p ps] eqn:Hps.
  - cbn. intros [= _ <-]. cbn. now rewrite app_nil_r.
  - cbn [is_empty negb andb]. unfold bind.
    destruct (for_text init_arg (p :: ps) g) as [[args | e] g1] eqn:Ei;
      [| discriminate].
    destruct (forward_params set_order mdf_functions (p :: ps) None g1)
      as [[body | e] g2] eqn:Ef; [| discriminate].
    pose proof (forward_params_store _ _ _ _ _ _ _ Ef) as ->.
    destruct (forward_return set_order (n_output_ports node_dict) g1)
      as [[r | e] g3] eqn:Er; [| discriminate].
    pose proof (forward_return_store _ _ _ _ _ Er) as ->.
    unfold ret. intros [= _ <-].
    exact (init_loop_store _ _ _ _ Ei).
Qed.

(** X8.  What writing the class of a node without node-level functions
    leaves in the store: [not_self] as it was; in [param_set] the id of
    every parameter of the node that is not bound to a function, added in
    the order of the parameters; at the end of [graph_input] the value of
    every parameter called [input_level].  Nothing the [forward] of the
    class needs is recorded, and nothing is ever taken out. *)
Theorem declaration_store_effect :
  forall set_order mdf_functions name node_dict execution_order g text g',
    n_functions node_dict = [] ->
    get_module_declaration_text set_order mdf_functions
      name node_dict execution_order g = (Ok text, g') ->
    not_self g' = not_self g
    /\ param_set g' = seen_after (n_parameters node_dict) (param_set g)
    /\ graph_input g' = graph_input g ++ inputs_of (n_parameters node_dict).
Proof.
  intros so reg name node eo g text g' Hfun H.
  pose proof (declaration_store so reg name node eo g text g' H) as Hs.
  now rewrite Hfun in Hs.
Qed.

Lemma declaration_store_effect_witness :
  not_self {| not_self := []; param_set := ["input_level"; "gain"];
              graph_input := [VInt 3] |} = not_self at_import
  /\ param_set {| not_self := []; param_set := ["input_level"; "gain"];
                  graph_input := [VInt 3] |}
     = seen_after (n_parameters input_node) (param_set at_import)
  /\ graph_input {| not_self := []; param_set := ["input_level"; "gain"];
                    graph_input := [VInt 3] |}
     = graph_input at_import ++ inputs_of (n_parameters input_node).
Proof.
  apply (declaration_store_effect insertion_order standard_functions
           "A" input_node [] at_import
           (match fst (get_module_declaration_text insertion_order
                         standard_functions "A" input_node [] at_import) with
            | Ok text => text
            | Raise _ => ""
            end)).
  - reflexivity.
  - vm_compute. reflexivity.
Defined.

Lemma seen_after_keeps (ps : list Param) :
  forall seen x, In x seen -> In x (seen_after ps seen).
Proof.
  induction ps as [| p ps IH]; intros seen x H; [exact H |].
  unfold seen_after. cbn [foldl]. apply IH.
  destruct (truthy_ostr (p_function p)); [exact H |].
  unfold set_add. case_bool_decide; [exact H |].
  apply in_or_app. now left.
Qed.

Lemma seen_after_has (ps : list Param) (p : Param) :
  forall seen,
    In p ps -> truthy_ostr (p_function p) = false ->
    In (p_id p) (seen_after ps seen).
Proof.
  induction ps as [| q ps IH]; intros seen Hin Hf; [destruct Hin |].
  unfold seen_after. cbn [foldl]. destruct Hin as [-> | Hin].
  - apply seen_after_keeps. rewrite Hf.
    unfold set_add. case_bool_decide as Hd.
    + now apply list_elem_of_In.
    + apply in_or_app. right. now left.
  - now apply IH.
Qed.

Lemma sym_loop_non_str (ids : list string) (v : pyval) :
  ids <> [] -> (forall s, v <> VStr s) -> sym_loop ids v = Raise TypeError.
Proof.
  intros Hids Hv. destruct ids as [| i ids]; [congruence |].
  destruct v; try reflexivity. now destruct (Hv s).
Qed.

(** A parameter whose own line cannot be written stops the whole loop. *)
Lemma forward_params_stuck set_order mdf_functions (p : Param) g (ps : list Param) :
  In p ps ->
  is_ok (fst (forward_stateful set_order p g)) = false ->
  forall exp,
    is_ok (fst (forward_params set_order mdf_functions ps exp g)) = false.
Proof.
  intros Hin Hp. induction ps as [| q ps IH]; intros exp; [destruct Hin |].
  cbn [forward_params]. unfold bind.
  destruct (forward_stateful set_order q g) as [[l1 | e] g1] eqn:E1;
    [| reflexivity].
  pose proof (forward_stateful_store _ _ _ _ _ E1) as ->.
  destruct Hin as [-> | Hin]; [now rewrite E1 in Hp |].
  destruct (forward_function set_order mdf_functions q exp g)
    as [[[l2 exp'] | e] g2] eqn:E2; [| reflexivity].
  pose proof (forward_function_store _ _ _ _ _ _ _ E2) as ->.
  cbn [snd]. specialize (IH Hin exp').
  destruct (forward_params set_order mdf_functions ps exp' g) as [[l3 | e] g3];
    [discriminate IH | reflexivity].
Qed.



(** X10.  A node that has parameters, no node-level functions and no
    output port is never compiled: [output_ports[0]] is read at the end
    whatever the parameters are. *)
Theorem no_output_port_never_compiles :
  forall set_order mdf_functions name node_dict execution_order g,
    n_parameters node_dict <> [] ->
    n_functions node_dict = [] ->
    n_output_ports node_dict = [] ->
    is_ok (fst (get_module_declaration_text set_order mdf_functions
                  name node_dict execution_order g)) = false.
Proof.
  intros so reg name node eo g Hps Hfun Hout.
  unfold get_module_declaration_text. rewrite Hfun, Hout.
  destruct (n_parameters node) as [| q ps]; [congruence |].
  cbn [is_empty negb andb]. unfold bind.
  destruct (for_text init_arg (q :: ps) g) as [[args | e] g1]; [| reflexivity].
  destruct (forward_params so reg (q :: ps) None g1) as [[body | e] g2];
    reflexivity.
Qed.

Lemma no_output_port_never_compiles_witness :
  is_ok (fst (get_module_declaration_text insertion_order standard_functions
                "N" portless_node [] at_import)) = false.
Proof.
  apply (no_output_port_never_compiles insertion_order standard_functions
           "N" portless_node [] at_import).
  - discriminate.
  - reflexivity.
  - reflexivity.
Defined.

Lemma forward_function_unbound set_order mdf_functions (q : Param) exp g :
  truthy_ostr (p_function q) = false ->
  forward_function set_order mdf_functions q exp g = (Ok ([], exp), g).
Proof.
  intros Hf. unfold forward_function.
  destruct (p_function q) as [f |]; [| reflexivity].
  now rewrite Hf.
Qed.

Lemma forward_params_unknown_first set_order mdf_functions
    (pre : list Param) (p : Param) (post : list Param) f g :
  (forall q, In q pre -> truthy_ostr (p_function q) = false) ->
  p_function p = Some f -> f <> "" -> mdf_functions !! f = None ->
  is_ok (fst (forward_params set_order mdf_functions (pre ++ p :: post) None g))
  = false.
Proof.
  intros Hpre Hf Hne Hreg. induction pre as [| q pre IH]; cbn [app forward_params];
    unfold bind.
  - destruct (forward_stateful set_order p g) as [[l1 | e] g1] eqn:E1;
      [| reflexivity].
    pose proof (forward_stateful_store _ _ _ _ _ E1) as ->.
    now rewrite (forward_function_unknown set_order mdf_functions p f None g Hf Hne Hreg).
  - destruct (forward_stateful set_order q g) as [[l1 | e] g1] eqn:E1;
      [| reflexivity].
    pose proof (forward_stateful_store _ _ _ _ _ E1) as ->.
    rewrite (forward_function_unbound _ _ q None g (Hpre q (or_introl eq_refl))).
    cbn [snd]. specialize (IH (fun q' Hq' => Hpre q' (or_intror Hq'))).
    destruct (forward_params set_order mdf_functions (pre ++ p :: post) None g)
      as [[l3 | e] g3]; [discriminate IH | reflexivity].
Qed.

(** X11.  A node without node-level functions whose first function-bound
    parameter names a function that the registry does not have is never
    compiled: [exp] has not been assigned when it is read. *)
Theorem unknown_first_function_never_compiles :
  forall set_order mdf_functions name node_dict execution_order
         (pre : list Param) (p : Param) (post : list Param) (f : string) g,
    n_functions node_dict = [] ->
    n_parameters node_dict = pre ++ p :: post ->
    (forall q, In q pre -> truthy_ostr (p_function q) = false) ->
    p_function p = Some f ->
    f <> "" ->
    mdf_functions !! f = None ->
    is_ok (fst (get_module_declaration_text set_order mdf_functions
                  name node_dict execution_order g)) = false.
Proof.
  intros so reg name node eo pre p post f g Hfun Hps Hpre Hf Hne Hreg.
  unfold get_module_declaration_text. rewrite Hfun, Hps.
  assert (Hnon : is_empty (pre ++ p :: post) = false) by now destruct pre.
  rewrite Hnon. cbn [negb andb is_empty]. unfold bind.
  destruct (for_text init_arg (pre ++ p :: post) g) as [[args | e] g1];
    [| reflexivity].
  pose proof (forward_params_unknown_first so reg pre p post f g1 Hpre Hf Hne Hreg)
    as Hfp.
  destruct (forward_params so reg (pre ++ p :: post) None g1) as [[body | e] g2];
    [discriminate Hfp | reflexivity].
Qed.

Lemma unknown_first_function_never_compiles_witness :
  is_ok (fst (get_module_declaration_text insertion_order standard_functions
                "N" node_unknown_first [] at_import)) = false.
Proof.
  apply (unknown_first_function_never_compiles insertion_order
           standard_functions "N" node_unknown_first []
           [] (function_param "z" "no_such_function" []) []
           "no_such_function" at_import).
  - reflexivity.
  - reflexivity.
  - intros q [].
  - reflexivity.
  - discriminate.
  - vm_compute. reflexivity.
Defined.

(** ** Chains, and the dummy input of a script *)

Lemma order_index_fresh (x : string) (pre l : list string) :
  ~ In x pre -> order_index x (pre ++ x :: l) = Some (List.length pre).
Proof.
  induction pre as [| y pre IH]; intros H; cbn [app order_index List.length].
  - now rewrite String.eqb_refl.
  - destruct (String.eqb_spec y x) as [-> | Hne].
    + exfalso. apply H. now left.
    + rewrite IH; [reflexivity |]. intros Hin. apply H. now right.
Qed.

Lemma chain_respected (edges : list Edge) :
  forall (pre : list string) (a : string) (rest : list string),
    List.NoDup (pre ++ a :: rest) ->
    map e_sender edges = removelast (a :: rest) ->
    map e_receiver edges = rest ->
    forallb (edge_respected (pre ++ a :: rest)) edges = true.
Proof.
  induction edges as [| e edges IH]; intros pre a rest Hnd Hs Hr; [reflexivity |].
  destruct rest as [| b rest]; [discriminate Hr |].
  cbn [map] in Hr, Hs. injection Hr as Hrb Hr.
  change (removelast (a :: b :: rest)) with (a :: removelast (b :: rest)) in Hs.
  injection Hs as Hsa Hs.
  cbn [forallb]. apply andb_true_iff. split.
  - unfold edge_respected. rewrite Hsa, Hrb.
    rewrite order_index_fresh.
    2:{ apply List.NoDup_remove_2 in Hnd. intros Hin. apply Hnd, in_or_app. now left. }
    replace (pre ++ a :: b :: rest) with ((pre ++ [a]) ++ b :: rest)
      by now rewrite <- app_assoc.
    rewrite order_index_fresh.
    2:{ replace (pre ++ a :: b :: rest) with ((pre ++ [a]) ++ b :: rest) in Hnd
          by now rewrite <- app_assoc.
        apply List.NoDup_remove_2 in Hnd. intros Hin. apply Hnd, in_or_app. now left. }
    rewrite length_app. cbn [List.length]. apply Nat.ltb_lt. lia.
  - replace (pre ++ a :: b :: rest) with ((pre ++ [a]) ++ b :: rest)
      by now rewrite <- app_assoc.
    apply IH; [| assumption | assumption].
    now rewrite <- app_assoc.
Qed.

(** X12.  When the ordered edges form one chain through pairwise different
    nodes (each edge starts where the one before ends), the execution order
    is the chain itself, and it is topological for these edges. *)
Theorem chain_order_is_topological :
  forall (nodes : list Node) (edges : list Edge)
         (first : string) (rest : list string),
    rest <> [] ->
    List.NoDup (first :: rest) ->
    map e_sender edges = removelast (first :: rest) ->
    map e_receiver edges = rest ->
    execution_order_of nodes edges = first :: rest
    /\ topological (first :: rest) edges = true.
Proof.
  intros nodes edges first rest Hne Hnd Hs Hr. split.
  - destruct edges as [| e edges]; [now destruct rest |].
    rewrite execution_order_edges.
    destruct rest as [| b rest]; [congruence |].
    change (removelast (first :: b :: rest))
      with (first :: removelast (b :: rest)) in Hs.
    cbn [map] in Hs, Hr. injection Hs as -> _. injection Hr as -> ->.
    reflexivity.
  - exact (chain_respected edges [] first rest Hnd Hs Hr).
Qed.

Lemma chain_order_is_topological_witness :
  execution_order_of [bare_node "A"; bare_node "B"; bare_node "C"] chain_edges
  = "A" :: ["B"; "C"]
  /\ topological ("A" :: ["B"; "C"]) chain_edges = true.
Proof.
  apply (chain_order_is_topological
           [bare_node "A"; bare_node "B"; bare_node "C"] chain_edges
           "A" ["B"; "C"]).
  - discriminate.
  - repeat (apply List.NoDup_cons; [simpl; intuition discriminate |]).
    apply List.NoDup_nil.
  - reflexivity.
  - reflexivity.
Defined.

Lemma declarations_store set_order mdf_functions execution_order (nodes : list Node) :
  forall g text g',
    for_text (fun node => get_module_declaration_text set_order mdf_functions
                            (n_id node) node execution_order) nodes g
    = (Ok text, g') ->
    not_self g' = not_self g
    /\ param_set g' = seen_after_nodes nodes (param_set g)
    /\ graph_input g' = graph_input g ++ inputs_of_nodes nodes.
Proof.
  induction nodes as [| n nodes IH]; intros g text g' H.
  - cbn in H. injection H as _ <-. cbn. now rewrite app_nil_r.
  - cbn [for_text] in H. unfold bind in H.
    destruct (get_module_declaration_text set_order mdf_functions (n_id n) n
                execution_order g) as [[t1 | e] g1] eqn:E1; [| discriminate].
    destruct (for_text _ nodes g1) as [[ts | e] g2] eqn:Es; [| discriminate].
    injection H as _ <-.
    destruct (declaration_store _ _ _ _ _ _ _ _ E1) as (Hn & Hp & Hi).
    destruct (IH _ _ _ Es) as (Hn' & Hp' & Hi').
    split; [congruence |]. split.
    + rewrite Hp', Hp. reflexivity.
    + rewrite Hi', Hi. unfold inputs_of_nodes. cbn [flat_map].
      now rewrite <- app_assoc.
Qed.

(** X13.  What building the script of a graph leaves in the store is what
    the classes of its nodes leave, one node after the other; and when the
    graph has more or fewer than one node, the dummy input the script is
    run on is built from everything [graph_input] then holds: the values
    collected by earlier compilations in the process first, then those of
    this graph. *)
Theorem script_feeds_all_collected_inputs :
  forall set_order repr_str mdf_functions (nodes : list Node)
         (execution_order : list string) (model_id1 : string)
         (d_e : list (string * list (string * pyval))) g script g',
    build_script set_order repr_str mdf_functions
      nodes execution_order model_id1 d_e g = (Ok script, g') ->
    not_self g' = not_self g
    /\ param_set g' = seen_after_nodes nodes (param_set g)
    /\ graph_input g' = graph_input g ++ inputs_of_nodes nodes
    /\ (List.length nodes <> 1 ->
        exists body,
          script = body +:+ script_tail repr_str nodes (model_id1 +:+ ".onnx")
                              (graph_input g ++ inputs_of_nodes nodes)).
Proof.
  intros so repr reg nodes eo mid d_e g script g'.
  unfold build_script, bind, lift, get_graph_input, ret.
  destruct (for_text _ nodes g) as [[decls | e] g1] eqn:Ed; [| discriminate].
  destruct (declarations_store _ _ _ _ _ _ _ Ed) as (Hn & Hp & Hi).
  destruct (generate_main_forward nodes eo d_e) as [fwd | e]; [| discriminate].
  destruct (Nat.eqb_spec (List.length nodes) 1) as [Hone | Hmany].
  - intros [= _ <-]. repeat split; try assumption. congruence.
  - intros [= <- <-]. repeat split; try assumption.
    intros _. rewrite Hi. eexists. reflexivity.
Qed.

Lemma script_feeds_all_collected_inputs_witness :
  not_self after_second_run = not_self after_level_model
  /\ param_set after_second_run
     = seen_after_nodes level_nodes (param_set after_level_model)
  /\ graph_input after_second_run
     = graph_input after_level_model ++ inputs_of_nodes level_nodes
  /\ (List.length level_nodes <> 1 ->
      exists body,
        match fst (build_script insertion_order single_quoted standard_functions
                     level_nodes ["A"; "B"] "m"
                     [("A", []); ("B", [("A", VNone)])] after_level_model) with
        | Ok script => script
        | Raise _ => ""
        end
        = body +:+ script_tail single_quoted level_nodes ("m" +:+ ".onnx")
                     (graph_input after_level_model
                        ++ inputs_of_nodes level_nodes)).
Proof.
  apply (script_feeds_all_collected_inputs insertion_order single_quoted
           standard_functions level_nodes
           ["A"; "B"] "m" [("A", []); ("B", [("A", VNone)])]
           after_level_model).
  vm_compute. reflexivity.
Defined.

(** ** The ONNX operators: names and arguments *)

Lemma after_last_none (sep s : string) :
  contains sep s = false -> Onnx.after_last sep 0 s = None.
Proof.
  induction s as [| c s IH]; intros H; [reflexivity |].
  cbn [contains] in H. apply orb_false_iff in H. destruct H as [Hp Hc].
  cbn [Onnx.after_last]. rewrite Hp. now apply IH.
Qed.

Lemma after_last_at_separator (s : string) :
  Onnx.after_last "::" 0 ("::" +:+ s)
  = match Onnx.after_last "::" 0 s with
    | Some rest => Some rest
    | None => Some s
    end.
Proof.
  change ("::" +:+ s) with (String ":" (String ":" s)).
  cbn [Onnx.after_last].
  replace (String.prefix "::" (String ":" (String ":" s))) with true
    by (symmetry; exact (prefix_app "::" s)).
  reflexivity.
Qed.

(** X14.  The name under which [get_onnx_ops] registers an operator leads
    [run_onnx_op] back to the operator: removing the namespace from
    [onnx::] followed by the schema name gives the schema name, as long as
    the schema name itself has no [::] in it. *)
Theorem namespace_round_trip :
  forall (lower : string -> string) (schema : Onnx.OpSchema),
    contains "::" (Onnx.s_name schema) = false ->
    Onnx.operator_name (Onnx.fs_name (Onnx.get_onnx_op lower schema))
    = Onnx.s_name schema.
Proof.
  intros lower schema H. cbn [Onnx.get_onnx_op Onnx.fs_name].
  unfold Onnx.operator_name.
  rewrite (contains_prefix _ _ (prefix_app "onnx::" (Onnx.s_name schema))).
  unfold Onnx.last_part.
  change ("onnx::" +:+ Onnx.s_name schema)
    with (String "o" (String "n" (String "n" (String "x"
            ("::" +:+ Onnx.s_name schema))))).
  cbn [Onnx.after_last String.prefix]. cbn.
  rewrite after_last_at_separator, (after_last_none "::" _ H). reflexivity.
Qed.

Lemma namespace_round_trip_witness :
  Onnx.operator_name (Onnx.fs_name (Onnx.get_onnx_op (fun s => s) conv_schema))
  = Onnx.s_name conv_schema.
Proof.
  apply (namespace_round_trip (fun s => s) conv_schema).
  reflexivity.
Defined.

Lemma has_key_In {A} k (d : list (string * A)) :
  Onnx.has_key k d = true <-> In k (map fst d).
Proof.
  unfold Onnx.has_key. rewrite <- dict_get_is_Some.
  destruct (dict_get k d); split; intros H.
  - eauto.
  - reflexivity.
  - discriminate.
  - destruct H as [x Hx]. discriminate.
Qed.

Lemma has_key_not_In {A} k (d : list (string * A)) :
  Onnx.has_key k d = false <-> ~ In k (map fst d).
Proof.
  rewrite <- has_key_In. destruct (Onnx.has_key k d); split; intros H.
  - discriminate.
  - now destruct H.
  - discriminate.
  - reflexivity.
Qed.

Lemma mem_In k (l : list string) : Onnx.mem k l = true <-> In k l.
Proof.
  unfold Onnx.mem. rewrite existsb_exists. split.
  - intros (x & Hx & Heq). apply String.eqb_eq in Heq. now subst.
  - intros H. exists k. split; [assumption | apply String.eqb_refl].
Qed.

Lemma mem_not_In k (l : list string) : Onnx.mem k l = false <-> ~ In k l.
Proof.
  rewrite <- mem_In. destruct (Onnx.mem k l); split; intros H.
  - discriminate.
  - now destruct H.
  - discriminate.
  - reflexivity.
Qed.

Lemma keyword_inputs_keys {A} (names : list string) (kwargs : list (string * A)) k :
  In k (map fst (Onnx.keyword_inputs names kwargs))
  <-> In k (map fst kwargs) /\ In k names.
Proof.
  unfold Onnx.keyword_inputs.
  assert (G : forall acc : list (string * A),
             In k (map fst (foldl (fun inputs_dict (entry : string * A) =>
                                     if Onnx.mem (fst entry) names
                                     then dict_set (fst entry) (snd entry) inputs_dict
                                     else inputs_dict) acc kwargs))
             <-> In k (map fst acc) \/ (In k (map fst kwargs) /\ In k names)).
  { induction kwargs as [| [kw arg] kwargs IH]; intros acc; cbn [foldl map fst snd].
    - simpl. tauto.
    - rewrite IH. destruct (Onnx.mem kw names) eqn:Hm.
      + apply mem_In in Hm. rewrite dict_set_keys. simpl.
        split; [intros [[-> | H] | [H1 H2]] | intros [H | [[<- | H1] H2]]]; auto.
      + apply mem_not_In in Hm. simpl.
        split; [intros [H | [H1 H2]] | intros [H | [[<- | H1] H2]]]; auto.
        contradiction. }
  rewrite G. simpl. tauto.
Qed.

Lemma positional_inputs_keys {A} (names : list string) n (args : list A) :
  forall arg_i (d : list (string * A)) k,
    (In k (map fst d) ->
     In k (map fst (fst (Onnx.positional_inputs names n args arg_i d))))
    /\ (In k (map fst (fst (Onnx.positional_inputs names n args arg_i d))) ->
        In k (map fst d) \/ In k names).
Proof.
  induction names as [| x names IH]; intros arg_i d k; cbn [Onnx.positional_inputs].
  - simpl. tauto.
  - destruct (negb (Onnx.has_key x d));
      [destruct (Nat.ltb arg_i (List.length args) && Nat.ltb arg_i n);
       [destruct (nth_error args arg_i) as [a |] |] |];
      try (destruct (IH arg_i d k) as [H1 H2]; split;
           [exact H1 | intros H; destruct (H2 H); [now left | right; now right]]).
    destruct (IH (S arg_i) (dict_set x a d) k) as [H1 H2]. split.
    + intros H. apply H1. apply dict_set_keys. now right.
    + intros H. destruct (H2 H) as [H' | H']; [| right; now right].
      apply dict_set_keys in H'. destruct H' as [-> | H']; [right | left]; auto.
      now left.
Qed.

Lemma dict_del_keys {A} k (d : list (string * A)) k' :
  In k' (map fst (Onnx.dict_del k d)) <-> In k' (map fst d) /\ k' <> k.
Proof.
  unfold Onnx.dict_del. rewrite !in_map_iff. split.
  - intros ([k0 v0] & <- & H). apply List.filter_In in H. destruct H as [H Hneq].
    cbn [fst] in *. apply negb_true_iff in Hneq.
    split; [exists (k0, v0); auto |].
    intros ->. now rewrite String.eqb_refl in Hneq.
  - intros [([k0 v0] & <- & H) Hne]. exists (k0, v0). split; [reflexivity |].
    apply List.filter_In. split; [assumption |]. cbn [fst] in *.
    apply negb_true_iff. destruct (String.eqb_spec k0 k); congruence.
Qed.

Lemma without_inputs_keys {A} (inputs_dict : list (string * A)) :
  forall (kwargs : list (string * A)) k,
    In k (map fst (Onnx.without_inputs inputs_dict kwargs))
    <-> In k (map fst kwargs) /\ ~ In k (map fst inputs_dict).
Proof.
  unfold Onnx.without_inputs.
  induction inputs_dict as [| [x v] d IH]; intros kwargs k; cbn [foldl map fst].
  - simpl. tauto.
  - rewrite IH. destruct (Onnx.has_key x kwargs) eqn:Hh.
    + rewrite dict_del_keys. simpl. split.
      * intros [[H Hne] Hd]. split; [assumption |].
        intros [Heq | Hin]; [apply Hne; now symmetry | now apply Hd].
      * intros [H Hn].
        split; [split; [assumption | intros ->; apply Hn; now left] |].
        intros Hd. apply Hn. now right.
    + apply has_key_not_In in Hh. simpl. split.
      * intros [H Hd]. split; [assumption |].
        intros [Heq | Hin]; [subst; contradiction | contradiction].
      * intros [H Hn]. split; [assumption |].
        intros Hd. apply Hn. now right.
Qed.

Lemma assign_attribute_keys {A} (attributes : list string) (arg : A) :
  forall (kwargs : list (string * A)) k,
    let r := Onnx.assign_attribute attributes arg kwargs in
    (In k (map fst kwargs) -> In k (map fst (snd r)))
    /\ (In k (map fst (snd r)) -> In k (map fst kwargs) \/ In k attributes)
    /\ (In k (fst r) -> In k attributes).
Proof.
  induction attributes as [| att rest IH]; intros kwargs k;
    cbn [Onnx.assign_attribute].
  - cbn. tauto.
  - destruct (Onnx.has_key att kwargs).
    + destruct (IH kwargs k) as (H1 & H2 & H3). cbn zeta.
      split; [exact H1 |]. split.
      * intros H. destruct (H2 H); [now left | right; now right].
      * intros H. right. now apply H3.
    + cbn [fst snd]. rewrite dict_set_keys. split; [auto |]. split.
      * intros [-> | H]; [right; now left | now left].
      * auto.
Qed.

Lemma assign_attributes_keys {A} (args : list A) :
  forall (attributes : list string) (kwargs : list (string * A)) k,
    (In k (map fst kwargs) ->
     In k (map fst (Onnx.assign_attributes attributes args kwargs)))
    /\ (In k (map fst (Onnx.assign_attributes attributes args kwargs)) ->
        In k (map fst kwargs) \/ In k attributes).
Proof.
  unfold Onnx.assign_attributes.
  induction args as [| arg args IH]; intros attributes kwargs k; cbn [foldl fst snd].
  - tauto.
  - pose proof (assign_attribute_keys attributes arg kwargs) as Hstep.
    destruct (Onnx.assign_attribute attributes arg kwargs) as [atts' kw'].
    cbn [fst snd] in *.
    destruct (IH atts' kw' k) as [H1 H2]. split.
    + intros H. apply H1. now apply (Hstep k).
    + intros H. destruct (H2 H) as [H' | H'].
      * now apply (Hstep k).
      * right. now apply (Hstep k).
Qed.

Lemma forallb_mem_false {A} (attributes : list string) (d : list (string * A)) :
  forallb (fun entry => Onnx.mem (fst entry) attributes) d = false
  <-> exists k, In k (map fst d) /\ ~ In k attributes.
Proof.
  induction d as [| [k v] d IH]; cbn [forallb map fst].
  - split; [discriminate | intros (k & [] & _)].
  - rewrite andb_false_iff, IH. split.
    + intros [H | (k' & H1 & H2)].
      * apply mem_not_In in H. exists k. split; [now left | assumption].
      * exists k'. split; [now right | assumption].
    + intros (k' & [<- | H1] & H2).
      * left. now apply mem_not_In.
      * right. eauto.
Qed.

(** X15.  The wrapper of an operator raises [ValueError] exactly when some
    keyword argument is neither an input nor an attribute of the schema.
    Nothing else makes it raise: positional arguments beyond the inputs and
    the free attributes are dropped without a word. *)
Theorem wrapper_rejects_unknown_keywords :
  forall (A : Type) (schema : Onnx.OpSchema) (args : list A)
         (kwargs : list (string * A)),
    Onnx.onnx_wrapper schema args kwargs = inr Onnx.ValueError
    <-> exists kw, In kw (map fst kwargs)
                   /\ ~ In kw (Onnx.s_inputs schema)
                   /\ ~ In kw (Onnx.s_attributes schema).
Proof.
  intros A schema args kwargs. unfold Onnx.onnx_wrapper.
  pose proof (positional_inputs_keys (Onnx.s_inputs schema)
                (List.length (Onnx.s_inputs schema)) args 0
                (Onnx.keyword_inputs (Onnx.s_inputs schema) kwargs)) as Hpos.
  destruct (Onnx.positional_inputs (Onnx.s_inputs schema)
              (List.length (Onnx.s_inputs schema)) args 0
              (Onnx.keyword_inputs (Onnx.s_inputs schema) kwargs))
    as [inputs_dict arg_i].
  cbn [fst] in Hpos.
  set (kwargs1 := Onnx.without_inputs inputs_dict kwargs).
  set (final := Onnx.assign_attributes (Onnx.s_attributes schema)
                  (skipn arg_i args) kwargs1).
  assert (Hcheck : forallb (fun entry => Onnx.mem (fst entry) (Onnx.s_attributes schema))
                     final = false
                   <-> exists kw, In kw (map fst kwargs)
                                  /\ ~ In kw (Onnx.s_inputs schema)
                                  /\ ~ In kw (Onnx.s_attributes schema)).
  { rewrite forallb_mem_false. split.
    - intros (k & Hk & Hatt).
      destruct (proj2 (assign_attributes_keys _ _ _ k) Hk) as [H1 | H1];
        [| contradiction].
      apply without_inputs_keys in H1. destruct H1 as [Hkw Hnot].
      exists k. repeat split; try assumption.
      intros Hin. apply Hnot. apply (Hpos k).
      apply keyword_inputs_keys. auto.
    - intros (k & Hkw & Hin & Hatt). exists k. split; [| assumption].
      apply assign_attributes_keys. apply without_inputs_keys.
      split; [assumption |]. intros Hd.
      destruct (proj2 (Hpos k) Hd) as [H | H]; [| contradiction].
      apply keyword_inputs_keys in H. now destruct H. }
  destruct (forallb _ final).
  - split; [discriminate |]. intros H. apply Hcheck in H. discriminate.
  - split; [intros _; now apply Hcheck | reflexivity].
Qed.

Lemma dict_get_absent {A} k (d : list (string * A)) :
  ~ In k (map fst d) -> dict_get k d = None.
Proof.
  intros H. destruct (dict_get k d) eqn:E; [| reflexivity].
  exfalso. apply H. apply dict_get_is_Some. eauto.
Qed.

Lemma keyword_inputs_get {A} (names : list string) (kwargs : list (string * A)) k :
  List.NoDup (map fst kwargs) ->
  dict_get k (Onnx.keyword_inputs names kwargs)
  = if Onnx.mem k names then dict_get k kwargs else None.
Proof.
  unfold Onnx.keyword_inputs. intros Hnd.
  assert (G : forall acc : list (string * A),
             dict_get k (foldl (fun inputs_dict (entry : string * A) =>
                                  if Onnx.mem (fst entry) names
                                  then dict_set (fst entry) (snd entry) inputs_dict
                                  else inputs_dict) acc kwargs)
             = match (if Onnx.mem k names then dict_get k kwargs else None) with
               | Some v => Some v
               | None => dict_get k acc
               end).
  { induction kwargs as [| [kw a] kwargs IH]; intros acc; cbn [foldl fst snd].
    - now destruct (Onnx.mem k names).
    - cbn [map fst] in Hnd. apply List.NoDup_cons_iff in Hnd.
      destruct Hnd as [Hfresh Hnd]. rewrite (IH Hnd). cbn [dict_get].
      destruct (String.eqb_spec kw k) as [-> | Hne].
      + rewrite (dict_get_absent k kwargs Hfresh).
        destruct (Onnx.mem k names); [apply dict_get_set_eq | reflexivity].
      + destruct (Onnx.mem k names); destruct (dict_get k kwargs);
          try reflexivity;
          destruct (Onnx.mem kw names); try reflexivity;
          now apply dict_get_set_ne. }
  rewrite G. cbn [dict_get]. now destruct (Onnx.mem k names), (dict_get k kwargs).
Qed.

Lemma positional_inputs_get {A} (names : list string) n (args : list A) k :
  forall arg_i (d : list (string * A)),
    Onnx.has_key k d = true ->
    dict_get k (fst (Onnx.positional_inputs names n args arg_i d)) = dict_get k d.
Proof.
  induction names as [| x names IH]; intros arg_i d Hk;
    cbn [Onnx.positional_inputs]; [reflexivity |].
  destruct (Onnx.has_key x d) eqn:Hx; cbn [negb]; [now apply IH |].
  destruct (Nat.ltb arg_i (List.length args) && Nat.ltb arg_i n); [| now apply IH].
  destruct (nth_error args arg_i) as [a |]; [| now apply IH].
  assert (Hne : x <> k) by (intros ->; congruence).
  rewrite IH.
  - now apply dict_get_set_ne.
  - apply has_key_In, dict_set_keys. right. now apply has_key_In.
Qed.

(** X16.  When the wrapper of an operator goes through, what it passes as
    inputs is keyed by input names of the schema only; an input given by
    keyword has the value of the keyword, whatever the positional arguments
    are; and what it passes as attributes is keyed by attributes of the
    schema only. *)
Theorem wrapper_sorts_arguments :
  forall (A : Type) (schema : Onnx.OpSchema) (args : list A)
         (kwargs inputs attributes : list (string * A)),
    List.NoDup (map fst kwargs) ->
    Onnx.onnx_wrapper schema args kwargs = inl (inputs, attributes) ->
    (forall k, In k (map fst inputs) -> In k (Onnx.s_inputs schema))
    /\ (forall k v, In k (Onnx.s_inputs schema) ->
                    dict_get k kwargs = Some v -> dict_get k inputs = Some v)
    /\ (forall k, In k (map fst attributes) -> In k (Onnx.s_attributes schema)).
Proof.
  intros A schema args kwargs inputs attributes Hnd. unfold Onnx.onnx_wrapper.
  pose proof (positional_inputs_keys (Onnx.s_inputs schema)
                (List.length (Onnx.s_inputs schema)) args 0
                (Onnx.keyword_inputs (Onnx.s_inputs schema) kwargs)) as Hpos.
  pose proof (fun k => positional_inputs_get (Onnx.s_inputs schema)
                (List.length (Onnx.s_inputs schema)) args k 0
                (Onnx.keyword_inputs (Onnx.s_inputs schema) kwargs)) as Hget.
  destruct (Onnx.positional_inputs (Onnx.s_inputs schema)
              (List.length (Onnx.s_inputs schema)) args 0
              (Onnx.keyword_inputs (Onnx.s_inputs schema) kwargs))
    as [inputs_dict arg_i].
  cbn [fst] in Hpos, Hget.
  destruct (forallb _ _) eqn:Hcheck; [| discriminate].
  intros [= <- <-]. split; [| split].
  - intros k Hk. destruct (proj2 (Hpos k) Hk) as [H | H]; [| assumption].
    apply keyword_inputs_keys in H. now destruct H.
  - intros k v Hin Hkw.
    assert (Hkey : dict_get k (Onnx.keyword_inputs (Onnx.s_inputs schema) kwargs)
                   = Some v).
    { rewrite (keyword_inputs_get _ _ _ Hnd).
      now rewrite (proj2 (mem_In k _) Hin). }
    rewrite Hget; [exact Hkey |]. unfold Onnx.has_key. now rewrite Hkey.
  - intros k Hk. rewrite forallb_forall in Hcheck.
    apply in_map_iff in Hk. destruct Hk as (entry & <- & Hentry).
    apply mem_In. now apply Hcheck.
Qed.

Lemma wrapper_sorts_arguments_witness :
  (forall k, In k (map fst [("W", 9); ("X", 1); ("B", 2)]) ->
             In k (Onnx.s_inputs conv_schema))
  /\ (forall k v, In k (Onnx.s_inputs conv_schema) ->
                  dict_get k [("W", 9); ("strides", 8)] = Some v ->
                  dict_get k [("W", 9); ("X", 1); ("B", 2)] = Some v)
  /\ (forall k, In k (map fst [("strides", 8); ("pads", 3); ("group", 4)]) ->
                In k (Onnx.s_attributes conv_schema)).
Proof.
  apply (wrapper_sorts_arguments nat conv_schema [1; 2; 3; 4]
           [("W", 9); ("strides", 8)]).
  - repeat (apply List.NoDup_cons; [simpl; intuition discriminate |]).
    apply List.NoDup_nil.
  - vm_compute. reflexivity.
Defined.

Lemma dict_set_fresh {A} k (v : A) (d : list (string * A)) :
  ~ In k (map fst d) -> dict_set k v d = d ++ [(k, v)].
Proof.
  induction d as [| [k' v'] d IH]; intros H; cbn [dict_set app]; [reflexivity |].
  destruct (String.eqb_spec k' k) as [-> | Hne].
  - exfalso. apply H. now left.
  - f_equal. apply IH. intros Hin. apply H. now right.
Qed.

Lemma keyword_inputs_none {A} (names : list string) (kwargs : list (string * A)) :
  (forall k, In k (map fst kwargs) -> ~ In k names) ->
  Onnx.keyword_inputs names kwargs = [].
Proof.
  unfold Onnx.keyword_inputs. intros H.
  assert (G : forall acc : list (string * A),
             foldl (fun inputs_dict (entry : string * A) =>
                      if Onnx.mem (fst entry) names
                      then dict_set (fst entry) (snd entry) inputs_dict
                      else inputs_dict) acc kwargs = acc).
  { induction kwargs as [| [kw a] kwargs IH]; intros acc; cbn [foldl fst snd];
      [reflexivity |].
    rewrite (proj2 (mem_not_In kw names)) by (apply H; now left).
    apply IH. intros k Hk. apply H. now right. }
  apply G.
Qed.

Lemma combine_nil_r {B C} (l : list B) : combine l (@nil C) = [].
Proof. now destruct l. Qed.

Lemma positional_inputs_fill {A} (n : nat) (args : list A) (names : list string) :
  forall arg_i (d : list (string * A)),
    List.NoDup names ->
    (forall k, In k names -> ~ In k (map fst d)) ->
    arg_i + List.length names <= n ->
    Onnx.positional_inputs names n args arg_i d
    = (d ++ combine names (skipn arg_i args),
       arg_i + Nat.min (List.length names) (List.length args - arg_i)).
Proof.
  induction names as [| x names IH]; intros arg_i d Hnd Hfree Hn;
    cbn [Onnx.positional_inputs].
  - cbn. now rewrite app_nil_r, Nat.add_0_r.
  - apply List.NoDup_cons_iff in Hnd. destruct Hnd as [Hx Hnd].
    rewrite (proj2 (has_key_not_In x d)) by (apply Hfree; now left).
    cbn [negb List.length] in *.
    destruct (Nat.ltb_spec arg_i (List.length args)) as [Hlt | Hge].
    + replace (Nat.ltb arg_i n) with true by (symmetry; apply Nat.ltb_lt; lia).
      cbn [andb].
      destruct (nth_error args arg_i) as [a |] eqn:Hnth.
      2:{ apply nth_error_None in Hnth. lia. }
      rewrite IH; [| assumption | | lia].
      * rewrite dict_set_fresh by (apply Hfree; now left).
        assert (Hsk : skipn arg_i args = a :: skipn (S arg_i) args).
        { clear -Hnth. revert arg_i Hnth.
          induction args as [| b args IHa]; intros [| i] H; try discriminate.
          - now injection H as ->.
          - cbn [skipn]. apply IHa. exact H. }
        rewrite Hsk. cbn [combine]. rewrite <- app_assoc. cbn [app].
        f_equal. lia.
      * intros k Hk. rewrite dict_set_fresh by (apply Hfree; now left).
        rewrite map_app, in_app_iff. cbn. intros [H | [<- | []]].
        -- apply (Hfree k); [now right | assumption].
        -- contradiction.
    + cbn [andb].
      rewrite IH; [| assumption | intros k Hk; apply Hfree; now right | lia].
      rewrite (skipn_all2 args) by lia.
      rewrite !combine_nil_r. f_equal. lia.
Qed.

Lemma without_inputs_disjoint {A} (inputs_dict : list (string * A)) :
  forall kwargs : list (string * A),
    (forall k, In k (map fst inputs_dict) -> ~ In k (map fst kwargs)) ->
    Onnx.without_inputs inputs_dict kwargs = kwargs.
Proof.
  unfold Onnx.without_inputs.
  induction inputs_dict as [| [x v] d IH]; intros kwargs H; cbn [foldl fst];
    [reflexivity |].
  rewrite (proj2 (has_key_not_In x kwargs)) by (apply H; now left).
  apply IH. intros k Hk. apply H. now right.
Qed.

(** The attributes that have no value yet in [kwargs]. *)
Lemma assign_attribute_free {A} (arg : A) (attributes : list string) :
  forall kwargs : list (string * A),
    List.NoDup attributes ->
    match List.filter (fun a => negb (Onnx.has_key a kwargs)) attributes with
    | [] => Onnx.assign_attribute attributes arg kwargs = ([], kwargs)
    | att :: free =>
        exists rest,
          Onnx.assign_attribute attributes arg kwargs
          = (att :: rest, kwargs ++ [(att, arg)])
          /\ List.NoDup (att :: rest)
          /\ List.filter (fun a => negb (Onnx.has_key a kwargs)) rest = free
    end.
Proof.
  induction attributes as [| a attributes IH]; intros kwargs Hnd;
    cbn [List.filter Onnx.assign_attribute]; [reflexivity |].
  pose proof Hnd as Hnd0.
  apply List.NoDup_cons_iff in Hnd. destruct Hnd as [Ha Hnd].
  destruct (Onnx.has_key a kwargs) eqn:Hk; cbn [negb].
  - exact (IH kwargs Hnd).
  - exists attributes. split; [| split; [assumption | reflexivity]].
    rewrite dict_set_fresh; [reflexivity |]. now apply has_key_not_In.
Qed.

Lemma filter_free_after {A} (att : string) (arg : A) (kwargs : list (string * A))
    (rest : list string) :
  ~ In att rest ->
  Onnx.has_key att kwargs = false ->
  List.filter (fun a => negb (Onnx.has_key a (kwargs ++ [(att, arg)]))) (att :: rest)
  = List.filter (fun a => negb (Onnx.has_key a kwargs)) rest.
Proof.
  intros Hfresh Hk. cbn [List.filter].
  assert (Hatt : Onnx.has_key att (kwargs ++ [(att, arg)]) = true).
  { apply has_key_In. rewrite map_app, in_app_iff. right. now left. }
  rewrite Hatt. cbn [negb].
  apply List.filter_ext_in. intros a Ha. f_equal.
  assert (Hne : a <> att) by (intros ->; contradiction).
  destruct (Onnx.has_key a kwargs) eqn:E.
  - apply has_key_In. rewrite map_app, in_app_iff. left. now apply has_key_In.
  - apply has_key_not_In. rewrite map_app, in_app_iff.
    intros [H | [H | []]]; [| cbn in H; congruence].
    apply has_key_not_In in E. contradiction.
Qed.

Lemma assign_attributes_fill {A} (args : list A) :
  forall (attributes : list string) (kwargs : list (string * A)),
    List.NoDup attributes ->
    Onnx.assign_attributes attributes args kwargs
    = kwargs ++ combine (List.filter (fun a => negb (Onnx.has_key a kwargs))
                                     attributes) args.
Proof.
  unfold Onnx.assign_attributes.
  induction args as [| arg args IH]; intros attributes kwargs Hnd; cbn [foldl fst snd].
  - now rewrite combine_nil_r, app_nil_r.
  - pose proof (assign_attribute_free arg attributes kwargs Hnd) as Hstep.
    destruct (List.filter (fun a => negb (Onnx.has_key a kwargs)) attributes)
      as [| att free] eqn:Hfree.
    + rewrite Hstep. rewrite (IH [] kwargs) by constructor.
      cbn. reflexivity.
    + destruct Hstep as (rest & -> & Hnd' & Hrest).
      rewrite (IH (att :: rest) _ Hnd').
      assert (Hk : Onnx.has_key att kwargs = false).
      { assert (Hin : In att (List.filter (fun a => negb (Onnx.has_key a kwargs))
                                          attributes))
          by (rewrite Hfree; now left).
        apply List.filter_In in Hin. destruct Hin as [_ Hin].
        now apply negb_true_iff in Hin. }
      apply List.NoDup_cons_iff in Hnd'. destruct Hnd' as [Hfresh _].
      rewrite (filter_free_after att arg kwargs rest Hfresh Hk), Hrest.
      cbn [combine]. now rewrite <- app_assoc.
Qed.

(** X17.  When no keyword names an input and every keyword is an attribute
    (the names of the schema being pairwise different among the inputs and
    among the attributes), the positional arguments go first to the inputs,
    in the order of the schema, and the arguments that are left go to the
    attributes that no keyword has set, in the order of the schema; the
    wrapper does not raise, and arguments that are still left over are
    dropped. *)
Theorem wrapper_fills_in_schema_order :
  forall (A : Type) (schema : Onnx.OpSchema) (args : list A)
         (kwargs : list (string * A)),
    List.NoDup (Onnx.s_inputs schema) ->
    List.NoDup (Onnx.s_attributes schema) ->
    (forall k, In k (map fst kwargs) ->
       In k (Onnx.s_attributes schema) /\ ~ In k (Onnx.s_inputs schema)) ->
    Onnx.onnx_wrapper schema args kwargs
    = inl (combine (Onnx.s_inputs schema) args,
           kwargs ++ combine (List.filter (fun a => negb (Onnx.has_key a kwargs))
                                          (Onnx.s_attributes schema))
                             (skipn (List.length (Onnx.s_inputs schema)) args)).
Proof.
  intros A schema args kwargs Hin Hat Hkw. unfold Onnx.onnx_wrapper.
  rewrite keyword_inputs_none by (intros k Hk; now apply Hkw).
  rewrite positional_inputs_fill; [| assumption | intros k _ [] | lia].
  cbn [app skipn]. rewrite Nat.sub_0_r.
  rewrite without_inputs_disjoint.
  2:{ intros k Hk Hk'. apply (Hkw k Hk').
      apply in_map_iff in Hk. destruct Hk as ([k0 v0] & <- & Hk).
      apply in_combine_l in Hk. exact Hk. }
  rewrite assign_attributes_fill by assumption.
  assert (Hskip : skipn (Nat.min (List.length (Onnx.s_inputs schema))
                                 (List.length args)) args
                  = skipn (List.length (Onnx.s_inputs schema)) args).
  { destruct (Nat.le_ge_cases (List.length (Onnx.s_inputs schema)) (List.length args))
      as [Hle | Hge].
    - now rewrite Nat.min_l.
    - rewrite Nat.min_r by assumption.
      now rewrite !skipn_all2 by lia. }
  cbn [Nat.add]. rewrite Hskip.
  replace (forallb _ _) with true; [reflexivity |].
  symmetry. apply forallb_forall. intros [k v] Hentry. cbn [fst].
  apply mem_In. apply in_app_iff in Hentry. destruct Hentry as [H | H].
  - apply (Hkw k). apply in_map_iff. exists (k, v). auto.
  - apply in_combine_l in H. apply List.filter_In in H. now destruct H.
Qed.

Lemma wrapper_fills_in_schema_order_witness :
  Onnx.onnx_wrapper conv_schema [1; 2; 3; 4; 5; 6; 7] [("strides", 8)]
  = inl (combine (Onnx.s_inputs conv_schema) [1; 2; 3; 4; 5; 6; 7],
         [("strides", 8)]
           ++ combine (List.filter
                         (fun a => negb (Onnx.has_key a [("strides", 8)]))
                         (Onnx.s_attributes conv_schema))
                      (skipn (List.length (Onnx.s_inputs conv_schema))
                             [1; 2; 3; 4; 5; 6; 7])).
Proof.
  apply (wrapper_fills_in_schema_order nat conv_schema [1; 2; 3; 4; 5; 6; 7]
           [("strides", 8)]).
  - repeat (apply List.NoDup_cons; [simpl; intuition discriminate |]).
    apply List.NoDup_nil.
  - repeat (apply List.NoDup_cons; [simpl; intuition discriminate |]).
    apply List.NoDup_nil.
  - intros k [<- | []]. split; [simpl; auto |].
    simpl. intuition discriminate.
Defined.

(** ** The public entry point *)

(** X18.  With [model_input] unbound, as it is whenever the module is
    imported rather than run as a script, [mdf_to_pytorch] never returns a
    model for a model that has a graph: when the scripts are generated it
    stops with [NameError] at the first of them, and otherwise with the
    exception of the generation. *)
Theorem mdf_to_pytorch_needs_model_input :
  forall set_order repr_str mdf_functions ordered_edges get_node
         (T E : Type) (exec_module : string -> string -> T + E)
         (eval_mode : T -> T) (mdf_model : Model) (eval_models : bool) g,
    m_graphs mdf_model <> [] ->
    fst (mdf_to_pytorch set_order repr_str mdf_functions ordered_edges get_node
           None T E exec_module eval_mode mdf_model eval_models g)
    = match fst (_generate_scripts_from_model set_order repr_str mdf_functions
                   ordered_edges get_node mdf_model g) with
      | Ok _ => inr NameError
      | Raise e => inr (ExportError e)
      end.
Proof.
  intros so repr reg oe gn T E exec ev m flag g Hne.
  unfold mdf_to_pytorch.
  destruct (_generate_scripts_from_model so repr reg oe gn m g)
    as [[scripts | e] g'] eqn:Hgen; [| reflexivity].
  cbn [fst].
  unfold _generate_scripts_from_model in Hgen.
  destruct (generate_scripts_loop_key so repr reg oe gn m
              (List.hd {| g_id := ""; g_nodes := []; g_edges := [] |} (m_graphs m))
              (m_graphs m) (fun _ Hg => Hg) [] g scripts g' Hgen (or_introl eq_refl))
    as [[Hnil _] | [script ->]]; [congruence |].
  reflexivity.
Qed.

Lemma mdf_to_pytorch_needs_model_input_witness :
  fst (mdf_to_pytorch insertion_order single_quoted standard_functions
         declared_edges find_node None nat nat (fun _ _ => inl 0) (fun t => t)
         level_model true at_import)
  = match fst (export level_model at_import) with
    | Ok _ => inr NameError
    | Raise e => inr (ExportError e)
    end.
Proof.
  apply (mdf_to_pytorch_needs_model_input insertion_order single_quoted
           standard_functions declared_edges find_node nat nat
           (fun _ _ => inl 0) (fun t => t) level_model true at_import).
  discriminate.
Defined.

(** *** The file a script is written to *)

Lemma split_on_nonempty (c : ascii) (s : string) : split_on c s <> [].
Proof.
  destruct s as [| x s]; cbn [split_on]; [discriminate |].
  destruct (Ascii.eqb x c); [discriminate |].
  destruct (split_on c s); discriminate.
Qed.

Lemma split_on_without (c : ascii) (s : string) :
  contains (String c "") s = false -> split_on c s = [s].
Proof.
  induction s as [| x s IH]; intros H; [reflexivity |].
  cbn [contains String.prefix] in H.
  apply orb_false_iff in H as [Hp Hc].
  cbn [split_on].
  destruct (Ascii.eqb_spec x c) as [-> | Hne].
  - destruct (ascii_dec c c) as [_ | Hcc]; [| congruence].
    destruct s; discriminate Hp.
  - rewrite (IH Hc). reflexivity.
Qed.

Lemma split_on_app (c : ascii) (s t : string) :
  split_on c (s +:+ String c t) = split_on c s ++ split_on c t.
Proof.
  induction s as [| x s IH].
  - rewrite string_app_nil_l. cbn [split_on]. rewrite Ascii.eqb_refl. reflexivity.
  - rewrite string_app_cons. cbn [split_on].
    destruct (Ascii.eqb x c).
    + rewrite IH. reflexivity.
    + rewrite IH. pose proof (split_on_nonempty c s) as Hne.
      destruct (split_on c s) as [| h l]; [congruence |]. reflexivity.
Qed.

Lemma join_cons2 (sep x y : string) (l : list string) :
  join sep (x :: y :: l) = x +:+ sep +:+ join sep (y :: l).
Proof. reflexivity. Qed.

Lemma join_split_on (c : ascii) (s : string) :
  join (String c "") (split_on c s) = s.
Proof.
  induction s as [| x s IH]; [reflexivity |].
  cbn [split_on]. pose proof (split_on_nonempty c s) as Hne.
  destruct (Ascii.eqb_spec x c) as [-> | Hxc].
  - destruct (split_on c s) as [| h l]; [congruence |].
    rewrite join_cons2, IH, string_app_nil_l, string_app_cons, string_app_nil_l.
    reflexivity.
  - destruct (split_on c s) as [| h l]; [congruence |].
    destruct l as [| y l].
    + cbn [join] in *. now rewrite IH.
    + rewrite join_cons2 in *. rewrite string_app_cons. now rewrite IH.
Qed.

Lemma join_snoc (sep x : string) (l : list string) :
  l <> [] -> join sep (l ++ [x]) = join sep l +:+ sep +:+ x.
Proof.
  induction l as [| y l IH]; [congruence |]. intros _.
  destruct l as [| z l]; [reflexivity |].
  change ((y :: z :: l) ++ [x]) with (y :: ((z :: l) ++ [x])).
  change ((z :: l) ++ [x]) with (z :: (l ++ [x])) at 1.
  rewrite join_cons2.
  change (z :: (l ++ [x])) with ((z :: l) ++ [x]).
  rewrite IH by discriminate.
  rewrite join_cons2, !string_app_assoc. reflexivity.
Qed.

Lemma all_but_last_two_app {A} (l : list A) (a b : A) :
  all_but_last_two (l ++ [a; b]) = l.
Proof.
  unfold all_but_last_two. rewrite List.length_app. cbn [List.length].
  replace (List.length l + 2 - 2) with (List.length l + 0) by lia.
  rewrite List.firstn_app_2. cbn [firstn]. apply List.app_nil_r.
Qed.

(** X19.  The script goes two levels above the input file, into [PyTorch/],
    under the name of the model: for an input [dir/a/b], where [a] and [b]
    hold no slash, the file is [dir/PyTorch/<model id>_pytorch.py]. *)
Theorem module_path_two_levels_up :
  forall dir a b model_id1 : string,
    contains "/" a = false ->
    contains "/" b = false ->
    module_path (dir +:+ "/" +:+ a +:+ "/" +:+ b) model_id1
    = dir +:+ "/PyTorch/" +:+ model_id1 +:+ "_pytorch.py".
Proof.
  intros dir a b id Ha Hb. unfold module_path.
  change ("/" +:+ a +:+ "/" +:+ b) with (String "/" (a +:+ String "/" b)).
  rewrite !split_on_app, (split_on_without _ a Ha), (split_on_without _ b Hb).
  change ([a] ++ [b]) with [a; b].
  rewrite all_but_last_two_app.
  rewrite join_snoc by apply split_on_nonempty.
  rewrite join_split_on, !string_app_assoc. reflexivity.
Qed.

Lemma module_path_two_levels_up_witness :
  contains "/" "PyTorch" = false
  /\ contains "/" "Inception.json" = false
  /\ module_path "C:/Users/mraunak/PycharmProjects/MDF/examples/PyTorch/Inception.json"
       "Inception"
     = "C:/Users/mraunak/PycharmProjects/MDF/examples/PyTorch/Inception_pytorch.py".
Proof.
  split; [reflexivity |]. split; [reflexivity |].
  apply (module_path_two_levels_up
           "C:/Users/mraunak/PycharmProjects/MDF/examples" "PyTorch"
           "Inception.json" "Inception"); reflexivity.
Defined.

(** *** The models returned *)

Lemma load_scripts_one
    (model_input : option string) (T E : Type)
    (exec_module : string -> string -> T + E) (eval_mode : T -> T)
    (model_id1 : string) (eval_models : bool) (name script : string)
    (models : list (string * T)) :
  load_scripts model_input T E exec_module eval_mode model_id1 eval_models
    [(name, script)] [] = inl models ->
  exists input model,
    model_input = Some input
    /\ exec_module (module_path input model_id1) script = inl model
    /\ models = [(name, if eval_models then eval_mode model else model)].
Proof.
  cbn [load_scripts]. unfold _script_to_model.
  destruct model_input as [input |]; [| discriminate].
  destruct (exec_module (module_path input model_id1) script)
    as [model | e] eqn:Hexec; [| discriminate].
  intros H. injection H as <-. exists input, model.
  split; [reflexivity |]. split; [exact Hexec | reflexivity].
Qed.

(** X20.  What [mdf_to_pytorch] returns for a model with graphs is a
    dictionary of one model, whatever the number of graphs: the one the
    generated script of the last graph id defines, loaded from the file
    named after the model, and put in evaluation mode when asked. *)
Theorem mdf_to_pytorch_returns_one_model :
  forall set_order repr_str mdf_functions ordered_edges get_node
         (model_input : option string) (T E : Type)
         (exec_module : string -> string -> T + E) (eval_mode : T -> T)
         (mdf_model : Model) (default : Graph) (eval_models : bool) g models,
    m_graphs mdf_model <> [] ->
    fst (mdf_to_pytorch set_order repr_str mdf_functions ordered_edges get_node
           model_input T E exec_module eval_mode mdf_model eval_models g)
    = inl models ->
    exists input script model,
      model_input = Some input
      /\ fst (_generate_scripts_from_model set_order repr_str mdf_functions
                ordered_edges get_node mdf_model g)
         = Ok [(g_id (List.last (m_graphs mdf_model) default), script)]
      /\ exec_module (module_path input (m_id mdf_model)) script = inl model
      /\ models = [(g_id (List.last (m_graphs mdf_model) default),
                    if eval_models then eval_mode model else model)].
Proof.
  intros so repr reg oe gn mi T E exec ev m default flag g models Hne.
  unfold mdf_to_pytorch.
  destruct (_generate_scripts_from_model so repr reg oe gn m g)
    as [[scripts | e] g'] eqn:Hgen; cbn [fst]; [| discriminate].
  unfold _generate_scripts_from_model in Hgen.
  destruct (generate_scripts_loop_key so repr reg oe gn m default (m_graphs m)
              (fun _ Hg => Hg) [] g scripts g' Hgen (or_introl eq_refl))
    as [[Hnil _] | [script ->]]; [congruence |].
  intros Hload.
  destruct (load_scripts_one mi T E exec ev (m_id m) flag _ script models Hload)
    as (input & model & Hin & Hexec & Hmodels).
  exists input, script, model. auto.
Qed.

Lemma mdf_to_pytorch_returns_one_model_witness :
  exists input script model,
    Some "models/MDF/level.json" = Some input
    /\ fst (export level_model at_import)
       = Ok [(g_id (List.last (m_graphs level_model) fan_in_graph), script)]
    /\ (fun path _ => if String.eqb path "models/PyTorch/m_pytorch.py"
                      then inl 7 else inr tt)
         (module_path input (m_id level_model)) script = inl model
    /\ [("g", 8)]
       = [(g_id (List.last (m_graphs level_model) fan_in_graph),
           if true then S model else model)].
Proof.
  apply (mdf_to_pytorch_returns_one_model insertion_order single_quoted
           standard_functions declared_edges find_node
           (Some "models/MDF/level.json") nat unit
           (fun path _ => if String.eqb path "models/PyTorch/m_pytorch.py"
                          then inl 7 else inr tt)
           S level_model fan_in_graph true at_import [("g", 8)]).
  - discriminate.
  - vm_compute. reflexivity.
Defined.
